(** * PPE detection core: tracker, PPE assigner, compliance scorer

    Shallow embedding of [src/core/detector.py] (class [PPEDetector]) and of
    the constants of [src/config/settings.py] it reads.

    Numbers.  Box coordinates, IoU values and clock readings are Python
    floats in the source; they are embedded as exact rationals ([Q], compared
    with [==], [<] and [<=]), so rounding, overflow and NaN are outside the
    model.  A float division by zero raises [ZeroDivisionError] in Python;
    it is embedded as [None].  Person identifiers, the identifier counter
    and the class weights are Python integers, embedded as [Z]. *)

From Stdlib Require Import QArith Qminmax Lqa ZArith Lia.
From Stdlib Require Import Sorting.Sorted Sorting.Permutation.
From stdpp Require Import gmap strings list fin_maps.

Local Open Scope Z_scope.

(** ** Comparisons on rationals *)

Definition Qltb (x y : Q) : bool := negb (Qle_bool y x).

(** ** Data model *)

(** A box is the list [[x1, y1, x2, y2]] of the source. *)
Record Box := mkBox { bx1 : Q; by1 : Q; bx2 : Q; by2 : Q }.

(** A detection is the dict [{'class': .., 'box': .., 'confidence': ..}]. *)
Record Detection := mkDet {
  d_class : string;
  d_box : Box;
  d_confidence : Q
}.

(** A tracked person is a person detection whose dict received the key
    ['id'] in [track_persons]. *)
Record Person := mkPerson {
  p_det : Detection;
  p_id : Z
}.

Definition p_box (p : Person) : Box := d_box (p_det p).

(** The data model's box constraint [x1 <= x2], [y1 <= y2]. *)
Definition well_formed (b : Box) : Prop :=
  (bx1 b <= bx2 b)%Q /\ (by1 b <= by2 b)%Q.

(** [(box[2]-box[0]) * (box[3]-box[1])] *)
Definition box_area (b : Box) : Q :=
  ((bx2 b - bx1 b) * (by2 b - by1 b))%Q.

(** ** calculate_iou *)

(** Result of a float computation that may raise: values are compared as
    floats are, by value. *)
Inductive res_eq : option Q -> option Q -> Prop :=
  | res_eq_raise : res_eq None None
  | res_eq_value (x y : Q) : (x == y)%Q -> res_eq (Some x) (Some y).

(** [intersection / union]; Python raises [ZeroDivisionError] when the
    divisor is zero. *)
Definition py_div (a b : Q) : option Q :=
  if Qeq_bool b 0 then None else Some (a / b)%Q.

Definition calculate_iou (box1 box2 : Box) : option Q :=
  let x1 := Qmax (bx1 box1) (bx1 box2) in
  let y1 := Qmax (by1 box1) (by1 box2) in
  let x2 := Qmin (bx2 box1) (bx2 box2) in
  let y2 := Qmin (by2 box1) (by2 box2) in
  if Qltb x2 x1 || Qltb y2 y1 then Some 0%Q
  else
    let intersection := ((x2 - x1) * (y2 - y1))%Q in
    let area1 := box_area box1 in
    let area2 := box_area box2 in
    let union := (area1 + area2 - intersection)%Q in
    py_div intersection union.

(** ** settings.py *)

Module settings.
Definition IOU_THRESHOLD : Q := 0%Q.

Definition PPE_WEIGHTS : gmap string Z :=
  <["Hardhat" := 40]> (<["Safety Vest" := 40]> (<["Mask" := 20]> ∅)).

Definition COMPLIANCE_THRESHOLD : Z := 80.
End settings.

(** ** assign_ppe_to_persons *)

(** [sorted(ppe_items, key=area, reverse=True)]: Python's sort is stable,
    also with [reverse=True], so the result is the unique stable
    arrangement by descending key.  [insert_desc] puts [x] in front of the
    first element whose key is not greater than that of [x]. *)
Fixpoint insert_desc {A} (key : A -> Q) (x : A) (l : list A) : list A :=
  match l with
  | [] => [x]
  | y :: l' =>
      if Qltb (key x) (key y) then y :: insert_desc key x l'
      else x :: y :: l'
  end.

Definition sorted_desc {A} (key : A -> Q) (l : list A) : list A :=
  foldr (insert_desc key) [] l.

Definition ppe_area (x : Detection) : Q := box_area (d_box x).

(** The inner [for person in persons] loop, started with [best_iou = 0] and
    [best_person = None]; [None] when [calculate_iou] raises. *)
Fixpoint best_person_loop (thr : Q) (ppe : Detection) (persons : list Person)
    (best_iou : Q) (best_person : option Person) : option (option Person) :=
  match persons with
  | [] => Some best_person
  | person :: rest =>
      match calculate_iou (p_box person) (d_box ppe) with
      | None => None
      | Some current_iou =>
          if Qltb best_iou current_iou && Qle_bool thr current_iou
          then best_person_loop thr ppe rest current_iou (Some person)
          else best_person_loop thr ppe rest best_iou best_person
      end
  end.

Definition best_person_for (thr : Q) (persons : list Person) (ppe : Detection)
    : option (option Person) :=
  best_person_loop thr ppe persons 0%Q None.

(** [assigned_ppe[pid].append(ppe)] on a [defaultdict(list)]. *)
Definition dd_append (pid : Z) (ppe : Detection)
    (assigned_ppe : gmap Z (list Detection)) : gmap Z (list Detection) :=
  <[pid := default [] (assigned_ppe !! pid) ++ [ppe]]> assigned_ppe.

(** The outer [for ppe in ppe_items_sorted] loop. *)
Fixpoint assign_loop (thr : Q) (persons : list Person)
    (ppe_items_sorted : list Detection)
    (assigned_ppe : gmap Z (list Detection))
    : option (gmap Z (list Detection)) :=
  match ppe_items_sorted with
  | [] => Some assigned_ppe
  | ppe :: rest =>
      match best_person_for thr persons ppe with
      | None => None
      | Some None => assign_loop thr persons rest assigned_ppe
      | Some (Some best_person) =>
          assign_loop thr persons rest
            (dd_append (p_id best_person) ppe assigned_ppe)
      end
  end.

(** The function of the source with the configured threshold as an
    argument. *)
Definition assign_ppe_to_persons_with (thr : Q) (persons : list Person)
    (ppe_items : list Detection) : option (gmap Z (list Detection)) :=
  let ppe_items_sorted := sorted_desc ppe_area ppe_items in
  assign_loop thr persons ppe_items_sorted ∅.

Definition assign_ppe_to_persons :=
  assign_ppe_to_persons_with settings.IOU_THRESHOLD.

(** ** calculate_ppe_scores *)

(** [score += PPE_WEIGHTS.get(ppe['class'], 0)] over the assigned items. *)
Definition raw_score (weights : gmap string Z) (items : list Detection) : Z :=
  fold_left (fun score ppe => score + default 0 (weights !! d_class ppe))
            items 0.

(** [max(0, min(100, score))] *)
Definition clamp_score (score : Z) : Z := Z.max 0 (Z.min 100 score).

Fixpoint scores_loop (weights : gmap string Z) (persons : list Person)
    (assigned_ppe : gmap Z (list Detection)) (scores : gmap Z Z)
    : gmap Z Z :=
  match persons with
  | [] => scores
  | person :: rest =>
      let pid := p_id person in
      let score :=
        match assigned_ppe !! pid with
        | Some items => raw_score weights items
        | None => 0
        end in
      scores_loop weights rest assigned_ppe (<[pid := clamp_score score]> scores)
  end.

Definition calculate_ppe_scores_with (weights : gmap string Z)
    (persons : list Person) (assigned_ppe : gmap Z (list Detection))
    : gmap Z Z :=
  scores_loop weights persons assigned_ppe ∅.

Definition calculate_ppe_scores :=
  calculate_ppe_scores_with settings.PPE_WEIGHTS.

(** ** track_persons *)

(** [{'center': (cx, cy), 'timestamp': t}] *)
Record TrackData := mkTrack {
  center : Q * Q;
  timestamp : Q
}.

(** The two attributes of [PPEDetector] that carry state across frames.
    [tracked_persons] is a Python dict, iterated in insertion order: an
    association list with one entry per key. *)
Record Tracker := mkTracker {
  id_counter : Z;
  tracked_persons : list (Z * TrackData)
}.

(** [__init__]: [id_counter = 0], [tracked_persons = {}]. *)
Definition init_tracker : Tracker := mkTracker 0 [].

(** [d[k] = v] on an insertion-ordered dict: an existing key keeps its
    position, a new key goes last. *)
Fixpoint dict_set (k : Z) (v : TrackData) (d : list (Z * TrackData))
    : list (Z * TrackData) :=
  match d with
  | [] => [(k, v)]
  | (k', v') :: d' =>
      if Z.eqb k' k then (k, v) :: d' else (k', v') :: dict_set k v d'
  end.

(** [cx = (box[0] + box[2]) / 2], [cy = (box[1] + box[3]) / 2] *)
Definition centroid (b : Box) : Q * Q :=
  (((bx1 b + bx2 b) / 2)%Q, ((by1 b + by2 b) / 2)%Q).

(** [(cx - prev_cx)**2 + (cy - prev_cy)**2].  The source's [distance] is the
    square root of this number; a square root is not rational, so the two
    comparisons of the source are decided on the squares, which is the same
    test for non-negative numbers: [distance < 50] is
    [distance_sq < 50 * 50], and [distance < min_distance] is the comparison
    of the two squares. *)
Definition distance_sq (c prev : Q * Q) : Q :=
  ((fst c - fst prev) * (fst c - fst prev)
   + (snd c - snd prev) * (snd c - snd prev))%Q.

(** The inner [for pid, data in self.tracked_persons.items()] loop;
    [min_distance_sq = None] stands for [min_distance = float('inf')]. *)
Fixpoint nearest_loop (c : Q * Q) (items : list (Z * TrackData))
    (matched_id : option Z) (min_distance_sq : option Q) : option Z :=
  match items with
  | [] => matched_id
  | (pid, data) :: rest =>
      let d2 := distance_sq c (center data) in
      if Qltb d2 (50 * 50)%Q
         && match min_distance_sq with
            | None => true
            | Some m => Qltb d2 m
            end
      then nearest_loop c rest (Some pid) (Some d2)
      else nearest_loop c rest matched_id min_distance_sq
  end.

Definition nearest_track (c : Q * Q) (items : list (Z * TrackData))
    : option Z :=
  nearest_loop c items None None.

(** One iteration of [for person in current_persons]; [t] is the value
    [time.time()] returns in this iteration. *)
Definition track_one (st : Tracker) (person : Detection) (t : Q)
    : Tracker * Person :=
  let c := centroid (d_box person) in
  match nearest_track c (tracked_persons st) with
  | Some matched_id =>
      (mkTracker (id_counter st)
                 (dict_set matched_id (mkTrack c t) (tracked_persons st)),
       mkPerson person matched_id)
  | None =>
      let new_id := id_counter st + 1 in
      (mkTracker new_id (dict_set new_id (mkTrack c t) (tracked_persons st)),
       mkPerson person new_id)
  end.

(** The whole [for person in current_persons] loop.  [now k] is the value of
    the [k]-th call of [time.time()] counted from [tick]. *)
Fixpoint track_loop (now : nat -> Q) (tick : nat) (st : Tracker)
    (current_persons : list Detection) : Tracker * list Person :=
  match current_persons with
  | [] => (st, [])
  | person :: rest =>
      let '(st1, p) := track_one st person (now tick) in
      let '(st2, updated_persons) := track_loop now (S tick) st1 rest in
      (st2, p :: updated_persons)
  end.

(** [current_time - data['timestamp'] < 2.0] *)
Definition is_live (current_time : Q) (entry : Z * TrackData) : bool :=
  Qltb (current_time - timestamp (snd entry)) 2.

(** The dict comprehension that keeps the tracks of the last two seconds. *)
Definition purge (current_time : Q) (d : list (Z * TrackData))
    : list (Z * TrackData) :=
  List.filter (is_live current_time) d.

(** [track_persons]: the [k]-th person is stamped [now k]; the clean-up
    reads the clock once more, after the loop. *)
Definition track_persons (now : nat -> Q) (st : Tracker)
    (current_persons : list Detection) : Tracker * list Person :=
  let '(st1, updated_persons) := track_loop now 0 st current_persons in
  let current_time := now (length current_persons) in
  (mkTracker (id_counter st1) (purge current_time (tracked_persons st1)),
   updated_persons).

(** A run of the tracker over successive frames: each frame comes with its
    clock readings. *)
Fixpoint track_frames (st : Tracker)
    (frames : list ((nat -> Q) * list Detection))
    : Tracker * list (list Person) :=
  match frames with
  | [] => (st, [])
  | (now, dets) :: rest =>
      let '(st1, out) := track_persons now st dets in
      let '(st2, outs) := track_frames st1 rest in
      (st2, out :: outs)
  end.

(** ** process_frame *)

(** What [process_frame] returns besides the resized image. *)
Record FrameResult := mkResult {
  r_persons : list Person;
  r_ppe_items : list Detection;
  r_scores : gmap Z Z
}.

(** [d['class'] == 'Person'] *)
Definition is_person (d : Detection) : bool :=
  bool_decide (d_class d = "Person").

(** [d['class'] in PPE_WEIGHTS] *)
Definition is_ppe (weights : gmap string Z) (d : Detection) : bool :=
  bool_decide (is_Some (weights !! d_class d)).

(** [process_frame] from the point where the detector's output has been
    converted to the list [detections].  The tracker is updated before the
    assigner runs, so it keeps its new state also when the assigner raises
    ([None]). *)
Definition process_detections_with (thr : Q) (weights : gmap string Z)
    (now : nat -> Q) (st : Tracker) (detections : list Detection)
    : Tracker * option FrameResult :=
  let persons := List.filter is_person detections in
  let ppe_items := List.filter (is_ppe weights) detections in
  let '(st', tracked_persons) := track_persons now st persons in
  match assign_ppe_to_persons_with thr tracked_persons ppe_items with
  | None => (st', None)
  | Some assigned_ppe =>
      let scores := calculate_ppe_scores_with weights tracked_persons assigned_ppe in
      (st', Some (mkResult tracked_persons ppe_items scores))
  end.

Definition process_detections :=
  process_detections_with settings.IOU_THRESHOLD settings.PPE_WEIGHTS.

(** ** Reference definitions for the statements *)

(** The spec's score formula: the sum of [weight(item.class_label)] over a
    list of items, an absent label weighing 0. *)
Definition weight_of (weights : gmap string Z) (item : Detection) : Z :=
  default 0 (weights !! d_class item).

Definition weight_sum (weights : gmap string Z) (items : list Detection) : Z :=
  foldr (fun item acc => weight_of weights item + acc) 0 items.

(** The items [assignment[id]] of a person, a missing key meaning none. *)
Definition items_of (assigned_ppe : gmap Z (list Detection)) (pid : Z)
    : list Detection :=
  default [] (assigned_ppe !! pid).

Definition hardhat (b : Box) : Detection := mkDet "Hardhat" b 1.

(** The IoU of a person's box against an item's box, as the assigner
    computes it. *)
Definition iou_with (ppe : Detection) (person : Person) : option Q :=
  calculate_iou (p_box person) (d_box ppe).

(** No IoU computation of the assigner raises on these inputs. *)
Definition all_iou_defined (persons : list Person) (items : list Detection)
    : Prop :=
  forall p it, p ∈ persons -> it ∈ items -> is_Some (iou_with it p).

(** The ID under which the inner loop files an item, if any. *)
Definition owner_id (thr : Q) (persons : list Person) (ppe : Detection)
    : option Z :=
  match best_person_for thr persons ppe with
  | Some (Some p) => Some (p_id p)
  | _ => None
  end.

(** [p] is the first person of the list that attains the greatest IoU
    against [ppe], and that IoU is positive and at least the threshold. *)
Definition first_best (thr : Q) (persons : list Person) (ppe : Detection)
    (p : Person) : Prop :=
  exists l1 l2 v,
    persons = l1 ++ p :: l2
    /\ iou_with ppe p = Some v
    /\ (0 < v)%Q /\ (thr <= v)%Q
    /\ (forall q w, q ∈ l1 -> iou_with ppe q = Some w -> (w < v)%Q)
    /\ (forall q w, q ∈ l2 -> iou_with ppe q = Some w -> (w <= v)%Q).

(** No person has a positive IoU that reaches the threshold. *)
Definition no_candidate (thr : Q) (persons : list Person) (ppe : Detection)
    : Prop :=
  forall q w, q ∈ persons -> iou_with ppe q = Some w ->
    ~ ((0 < w)%Q /\ (thr <= w)%Q).

(** The selection rule as the spec words it: the person whose IoU is
    strictly greater than everyone else's, provided it reaches the
    threshold. *)
Definition spec_selected (thr : Q) (persons : list Person) (ppe : Detection)
    (p : Person) : Prop :=
  p ∈ persons
  /\ exists v, iou_with ppe p = Some v /\ (thr <= v)%Q
     /\ forall q, q ∈ persons -> q <> p ->
          exists w, iou_with ppe q = Some w /\ (w < v)%Q.

(** Descending order of area. *)
Definition area_ge (a b : Detection) : Prop := (ppe_area b <= ppe_area a)%Q.

(** Executable form of [all_iou_defined]. *)
Definition all_iou_definedb (persons : list Person) (items : list Detection)
    : bool :=
  forallb (fun p =>
    forallb (fun it =>
      match iou_with it p with Some _ => true | None => false end) items)
    persons.

(** Sample data for the examples. *)
Definition person_at (b : Box) (pid : Z) : Person :=
  mkPerson (mkDet "Person" b 1) pid.

Definition vest (b : Box) : Detection := mkDet "Safety Vest" b 1.

(** The IDs of the live tracks, in dict order. *)
Definition keys (d : list (Z * TrackData)) : list Z := map fst d.

(** [d < min_distance], the squares compared, [None] being infinity. *)
Definition beats (min_distance_sq : option Q) (d2 : Q) : Prop :=
  match min_distance_sq with
  | None => True
  | Some m => (d2 < m)%Q
  end.

(** Every live ID was issued by the counter, and the dict has one entry per
    key. *)
Definition tracker_inv (st : Tracker) : Prop :=
  0 <= id_counter st
  /\ NoDup (keys (tracked_persons st))
  /\ forall k, k ∈ keys (tracked_persons st) -> 0 < k <= id_counter st.

(** The tracker after the frames of [history], started from [__init__]. *)
Definition tracker_after (history : list ((nat -> Q) * list Detection))
    : Tracker :=
  fst (track_frames init_tracker history).

(** A person detection with the given box. *)
Definition person_det (b : Box) : Detection := mkDet "Person" b 1.

(** The update test of the assigner's inner loop against its starting
    [best_iou = 0]: the IoU of the person with the item is positive and
    reaches the threshold. *)
Definition overlaps (thr : Q) (p : Person) (it : Detection) : bool :=
  match iou_with it p with
  | Some v => Qltb 0 v && Qle_bool thr v
  | None => false
  end.

(** Number of items of a class in a list. *)
Definition count_class (label : string) (items : list Detection) : Z :=
  Z.of_nat (length (filter (fun it => d_class it = label) items)).

(** ** visualize_results (interfaces/webcam.py and interfaces/batch_processor.py)

    The two files hold the same function.  It draws on a copy of the frame
    through [cv2.rectangle] and [cv2.putText]; the embedding returns the
    drawing calls in the order the function makes them.  The texts are
    f-strings: their arguments are kept, not their rendering.  No function
    of the repository stores a key ['ppe_items'] in a person dict, so the
    branch that lists the items of a person is not taken on the persons of
    [process_frame] and is left out. *)

Definition Color : Type := Z * Z * Z.

(** [COLORS] of settings.py *)
Definition COLORS : gmap string Color :=
  <["Person" := (0, 0, 255)]>
  (<["Hardhat" := (0, 255, 0)]>
  (<["Safety Vest" := (255, 255, 0)]>
  (<["Mask" := (0, 255, 255)]>
  (<["compliant" := (0, 200, 0)]>
  (<["non_compliant" := (0, 0, 200)]> ∅))))).

(** [COLORS[key]] for the three keys the function indexes; all three are
    keys of [COLORS], so the default stands for no run. *)
Definition color_at (key : string) : Color :=
  default (0, 0, 0) (COLORS !! key).

(** [int(x)] on a float: truncation toward zero. *)
Definition py_int (x : Q) : Z := Z.quot (Qnum x) (Z.pos (Qden x)).

Inductive Text :=
  | ItemLabel (class : string) (confidence : Q)
      (* f"{item['class']} {item['confidence']:.2f}" *)
  | IdLabel (pid : Z)            (* f"ID: {pid}" *)
  | ScoreLabel (score : Z).      (* f"PPE: {score}%" *)

Inductive DrawCmd :=
  | Rectangle (pt1 pt2 : Z * Z) (color : Color) (thickness : Z)
  | PutText (text : Text) (org : Z * Z) (fontScale : Q) (color : Color)
            (thickness : Z).

(** The body of [for item in frame_data['ppe_items']]. *)
Definition draw_item (item : Detection) : list DrawCmd :=
  let b := d_box item in
  let color := default (0, 255, 0) (COLORS !! d_class item) in
  [ Rectangle (py_int (bx1 b), py_int (by1 b)) (py_int (bx2 b), py_int (by2 b))
              color 2;
    PutText (ItemLabel (d_class item) (d_confidence item))
            (py_int (bx1 b), py_int (by1 b) - 10) (1 # 2) color 1 ].

(** [score = frame_data['scores'].get(pid, 0)] *)
Definition shown_score (scores : gmap Z Z) (pid : Z) : Z :=
  default 0 (scores !! pid).

(** [COLORS['compliant'] if score >= COMPLIANCE_THRESHOLD
     else COLORS['non_compliant']] *)
Definition compliance_color (score : Z) : Color :=
  if Z.leb settings.COMPLIANCE_THRESHOLD score
  then color_at "compliant" else color_at "non_compliant".

(** [info_y = box[1] - 10 if box[1] > 30 else box[3] + 20] *)
Definition info_y (y1 y2 : Z) : Z :=
  if Z.ltb 30 y1 then y1 - 10 else y2 + 20.

(** The body of [for person in frame_data['persons']]. *)
Definition draw_person (scores : gmap Z Z) (person : Person) : list DrawCmd :=
  let b := p_box person in
  let x1 := py_int (bx1 b) in
  let y1 := py_int (by1 b) in
  let x2 := py_int (bx2 b) in
  let y2 := py_int (by2 b) in
  let pid := p_id person in
  let score := shown_score scores pid in
  let iy := info_y y1 y2 in
  [ Rectangle (x1, y1) (x2, y2) (color_at "Person") 2;
    Rectangle (x1 - 1, iy - 20) (x1 + 200, iy + 60) (compliance_color score) (-1);
    PutText (IdLabel pid) (x1, iy) (6 # 10) (255, 255, 255) 1;
    PutText (ScoreLabel score) (x1, iy + 20) (6 # 10) (255, 255, 255) 1 ].

Definition visualize_results (frame_data : FrameResult) : list DrawCmd :=
  flat_map draw_item (r_ppe_items frame_data)
  ++ flat_map (draw_person (r_scores frame_data)) (r_persons frame_data).

(** The IDs and centroids of the live tracks, without the timestamps. *)
Definition positions (d : list (Z * TrackData)) : list (Z * (Q * Q)) :=
  map (fun e => (fst e, center (snd e))) d.

(** Each detection of the list is at least 50 pixels (centroid to centroid)
    from every earlier one. *)
Fixpoint pairwise_apart (dets : list Detection) : Prop :=
  match dets with
  | [] => True
  | d :: rest =>
      (forall d', d' ∈ rest ->
         (50 * 50 <= distance_sq (centroid (d_box d')) (centroid (d_box d)))%Q)
      /\ pairwise_apart rest
  end.

(** Successive one-person frames: each detection is less than 50 pixels
    from the previous centroid, and within a frame the clean-up reads the
    clock less than 2 seconds after the detection was stamped.  Nothing is
    asked of the time between two frames. *)
Fixpoint steady_walk (c : Q * Q) (frames : list ((nat -> Q) * Detection))
    : Prop :=
  match frames with
  | [] => True
  | (now, d) :: rest =>
      (distance_sq (centroid (d_box d)) c < 50 * 50)%Q
      /\ (now 1%nat - now 0%nat < 2)%Q
      /\ steady_walk (centroid (d_box d)) rest
  end.

Definition one_person_frames (frames : list ((nat -> Q) * Detection))
    : list ((nat -> Q) * list Detection) :=
  map (fun f => (fst f, [snd f])) frames.

(** * Properties *)

(** ** Rational comparisons *)

Lemma Qltb_lt (x y : Q) : Qltb x y = true <-> (x < y)%Q.
Proof.
  unfold Qltb. rewrite negb_true_iff.
  split; intros H.
  - apply Qnot_le_lt. intros Hle. apply Qle_bool_iff in Hle. congruence.
  - destruct (Qle_bool y x) eqn:E; [|reflexivity].
    apply Qle_bool_iff in E. apply Qle_not_lt in E. contradiction.
Qed.

Lemma Qltb_ge (x y : Q) : Qltb x y = false <-> (y <= x)%Q.
Proof.
  unfold Qltb. rewrite negb_false_iff. apply Qle_bool_iff.
Qed.

Lemma Qltb_proper (x x' y y' : Q) :
  (x == x')%Q -> (y == y')%Q -> Qltb x y = Qltb x' y'.
Proof.
  intros Hx Hy.
  destruct (Qltb x' y') eqn:E.
  - apply Qltb_lt. apply Qltb_lt in E. rewrite Hx, Hy. exact E.
  - apply Qltb_ge. apply Qltb_ge in E. rewrite Hx, Hy. exact E.
Qed.

Lemma Qeq_bool_proper (x x' y y' : Q) :
  (x == x')%Q -> (y == y')%Q -> Qeq_bool x y = Qeq_bool x' y'.
Proof.
  intros Hx Hy.
  destruct (Qeq_bool x' y') eqn:E.
  - apply Qeq_bool_iff. apply Qeq_bool_iff in E. rewrite Hx, Hy. exact E.
  - destruct (Qeq_bool x y) eqn:E'; [|reflexivity].
    apply Qeq_bool_iff in E'. rewrite Hx, Hy in E'.
    apply Qeq_bool_iff in E'. congruence.
Qed.

Lemma py_div_None (a b : Q) : py_div a b = None <-> (b == 0)%Q.
Proof.
  unfold py_div. destruct (Qeq_bool b 0) eqn:E.
  - apply Qeq_bool_iff in E. tauto.
  - split; [discriminate|]. intros H. apply Qeq_bool_iff in H. congruence.
Qed.

Lemma py_div_Some (a b v : Q) :
  py_div a b = Some v <-> ~ (b == 0)%Q /\ v = (a / b)%Q.
Proof.
  unfold py_div. destruct (Qeq_bool b 0) eqn:E.
  - apply Qeq_bool_iff in E. split; [discriminate|tauto].
  - assert (~ (b == 0)%Q) by (intros H; apply Qeq_bool_iff in H; congruence).
    split; [intros [= <-]; tauto | intros [_ ->]; reflexivity].
Qed.

(** ** calculate_iou *)

Section Iou.
Variables A B : Box.

(** Edges of the candidate overlap rectangle. *)
Let ix1 := Qmax (bx1 A) (bx1 B).
Let iy1 := Qmax (by1 A) (by1 B).
Let ix2 := Qmin (bx2 A) (bx2 B).
Let iy2 := Qmin (by2 A) (by2 B).

(** Degenerate candidate overlap (right edge left of left edge, or bottom
    edge above top edge): the result is 0, whatever the boxes. *)
Lemma calculate_iou_disjoint :
  (ix2 < ix1)%Q \/ (iy2 < iy1)%Q -> calculate_iou A B = Some 0%Q.
Proof.
  intros H. unfold calculate_iou. fold ix1 iy1 ix2 iy2.
  assert (Qltb ix2 ix1 || Qltb iy2 iy1 = true) as ->; [|reflexivity].
  apply orb_true_iff. rewrite !Qltb_lt. exact H.
Qed.

Lemma calculate_iou_overlap :
  (ix1 <= ix2)%Q -> (iy1 <= iy2)%Q ->
  calculate_iou A B =
    py_div ((ix2 - ix1) * (iy2 - iy1))
           (box_area A + box_area B - (ix2 - ix1) * (iy2 - iy1)).
Proof.
  intros Hx Hy. unfold calculate_iou. fold ix1 iy1 ix2 iy2.
  apply Qltb_ge in Hx, Hy. rewrite Hx, Hy. reflexivity.
Qed.

(** The intersection is inside each of the two boxes. *)
Lemma intersection_bounds :
  well_formed A -> well_formed B ->
  (ix1 <= ix2)%Q -> (iy1 <= iy2)%Q ->
  (0 <= (ix2 - ix1) * (iy2 - iy1))%Q
  /\ ((ix2 - ix1) * (iy2 - iy1) <= box_area A)%Q
  /\ ((ix2 - ix1) * (iy2 - iy1) <= box_area B)%Q.
Proof.
  intros [HA1 HA2] [HB1 HB2] Hx Hy. unfold box_area.
  pose proof (Q.le_max_l (bx1 A) (bx1 B)).
  pose proof (Q.le_max_r (bx1 A) (bx1 B)).
  pose proof (Q.le_max_l (by1 A) (by1 B)).
  pose proof (Q.le_max_r (by1 A) (by1 B)).
  pose proof (Q.le_min_l (bx2 A) (bx2 B)).
  pose proof (Q.le_min_r (bx2 A) (bx2 B)).
  pose proof (Q.le_min_l (by2 A) (by2 B)).
  pose proof (Q.le_min_r (by2 A) (by2 B)).
  unfold ix1, iy1, ix2, iy2 in Hx, Hy |- *.
  repeat split; nra.
Qed.
End Iou.

(** For boxes that satisfy the data model, the call raises exactly when the
    candidate overlap is not degenerate and both boxes have zero area. *)
Lemma calculate_iou_raises_iff (A B : Box) :
  well_formed A -> well_formed B ->
  calculate_iou A B = None <->
    (Qmax (bx1 A) (bx1 B) <= Qmin (bx2 A) (bx2 B))%Q
    /\ (Qmax (by1 A) (by1 B) <= Qmin (by2 A) (by2 B))%Q
    /\ (box_area A == 0)%Q /\ (box_area B == 0)%Q.
Proof.
  intros HA HB.
  destruct (Qlt_le_dec (Qmin (bx2 A) (bx2 B)) (Qmax (bx1 A) (bx1 B))) as [Hx|Hx].
  { rewrite calculate_iou_disjoint by (left; exact Hx).
    split; [discriminate|]. intros [H _]. apply Qle_not_lt in H. contradiction. }
  destruct (Qlt_le_dec (Qmin (by2 A) (by2 B)) (Qmax (by1 A) (by1 B))) as [Hy|Hy].
  { rewrite calculate_iou_disjoint by (right; exact Hy).
    split; [discriminate|]. intros (_ & H & _). apply Qle_not_lt in H. contradiction. }
  rewrite calculate_iou_overlap by assumption.
  rewrite py_div_None.
  destruct (intersection_bounds A B HA HB Hx Hy) as (H0 & H1 & H2).
  split.
  - intros HU. repeat split; try assumption; lra.
  - intros (_ & _ & Ha & Hb). lra.
Qed.

(** Whenever the call returns, the value is in [0, 1]. *)
Lemma calculate_iou_range (A B : Box) (v : Q) :
  well_formed A -> well_formed B ->
  calculate_iou A B = Some v -> (0 <= v <= 1)%Q.
Proof.
  intros HA HB.
  destruct (Qlt_le_dec (Qmin (bx2 A) (bx2 B)) (Qmax (bx1 A) (bx1 B))) as [Hx|Hx].
  { rewrite calculate_iou_disjoint by (left; exact Hx). intros [= <-]. lra. }
  destruct (Qlt_le_dec (Qmin (by2 A) (by2 B)) (Qmax (by1 A) (by1 B))) as [Hy|Hy].
  { rewrite calculate_iou_disjoint by (right; exact Hy). intros [= <-]. lra. }
  rewrite calculate_iou_overlap by assumption.
  destruct (intersection_bounds A B HA HB Hx Hy) as (H0 & H1 & H2).
  intros [HU ->]%py_div_Some.
  set (i := ((Qmin (bx2 A) (bx2 B) - Qmax (bx1 A) (bx1 B))
             * (Qmin (by2 A) (by2 B) - Qmax (by1 A) (by1 B)))%Q) in *.
  set (u := (box_area A + box_area B - i)%Q) in *.
  assert (0 < u)%Q as Hu by (unfold u in *; lra).
  assert (i <= u)%Q as Hiu by (unfold u; lra).
  clearbody u i.
  split.
  - apply Qle_shift_div_l; [exact Hu|]. lra.
  - apply Qle_shift_div_r; [exact Hu|]. lra.
Qed.

(** It returns as soon as one of the two boxes has a positive area. *)
Lemma calculate_iou_returns (A B : Box) :
  well_formed A -> well_formed B ->
  (0 < box_area A)%Q \/ (0 < box_area B)%Q ->
  exists v, calculate_iou A B = Some v /\ (0 <= v <= 1)%Q.
Proof.
  intros HA HB Hpos.
  destruct (calculate_iou A B) as [v|] eqn:E.
  - exists v. split; [reflexivity|]. exact (calculate_iou_range A B v HA HB E).
  - apply calculate_iou_raises_iff in E; [|assumption..].
    destruct E as (_ & _ & Ha & Hb). lra.
Qed.

(** X4: [calculate_iou] is symmetric for arbitrary boxes: both orders
    raise, or both return the same value. *)
Lemma calculate_iou_sym (A B : Box) :
  res_eq (calculate_iou A B) (calculate_iou B A).
Proof.
  unfold calculate_iou.
  pose proof (Q.max_comm (bx1 A) (bx1 B)) as Hx1.
  pose proof (Q.max_comm (by1 A) (by1 B)) as Hy1.
  pose proof (Q.min_comm (bx2 A) (bx2 B)) as Hx2.
  pose proof (Q.min_comm (by2 A) (by2 B)) as Hy2.
  rewrite (Qltb_proper _ _ _ _ Hx2 Hx1), (Qltb_proper _ _ _ _ Hy2 Hy1).
  destruct (Qltb _ _ || Qltb _ _).
  - constructor. reflexivity.
  - set (i := ((Qmin (bx2 A) (bx2 B) - Qmax (bx1 A) (bx1 B))
               * (Qmin (by2 A) (by2 B) - Qmax (by1 A) (by1 B)))%Q).
    set (i' := ((Qmin (bx2 B) (bx2 A) - Qmax (bx1 B) (bx1 A))
                * (Qmin (by2 B) (by2 A) - Qmax (by1 B) (by1 A)))%Q).
    assert (i == i')%Q as Hi by (unfold i, i'; rewrite Hx1, Hy1, Hx2, Hy2; reflexivity).
    assert (box_area A + box_area B - i == box_area B + box_area A - i')%Q
      as Hu by (rewrite Hi; ring).
    unfold py_div.
    rewrite (Qeq_bool_proper _ _ 0%Q 0%Q Hu (Qeq_refl 0)).
    destruct (Qeq_bool _ 0); constructor.
    rewrite Hu, Hi. reflexivity.
Qed.

(** X5: a box of positive area has IoU 1 with itself. *)
Lemma calculate_iou_self_positive (A : Box) :
  (bx1 A < bx2 A)%Q -> (by1 A < by2 A)%Q ->
  exists v, calculate_iou A A = Some v /\ (v == 1)%Q.
Proof.
  intros Hx Hy.
  assert (Qmax (bx1 A) (bx1 A) == bx1 A)%Q as Hx1 by apply Q.max_id.
  assert (Qmax (by1 A) (by1 A) == by1 A)%Q as Hy1 by apply Q.max_id.
  assert (Qmin (bx2 A) (bx2 A) == bx2 A)%Q as Hx2 by apply Q.min_id.
  assert (Qmin (by2 A) (by2 A) == by2 A)%Q as Hy2 by apply Q.min_id.
  rewrite calculate_iou_overlap by (rewrite ?Hx1, ?Hy1, ?Hx2, ?Hy2; lra).
  assert (0 < box_area A)%Q as Hpos by (unfold box_area; nra).
  set (i := ((Qmin (bx2 A) (bx2 A) - Qmax (bx1 A) (bx1 A))
             * (Qmin (by2 A) (by2 A) - Qmax (by1 A) (by1 A)))%Q).
  assert (i == box_area A)%Q as Hi
    by (unfold i, box_area; rewrite Hx1, Hy1, Hx2, Hy2; reflexivity).
  assert (~ (box_area A + box_area A - i == 0)%Q) as Hu by (rewrite Hi; lra).
  exists (i / (box_area A + box_area A - i))%Q. split.
  - apply py_div_Some. split; [exact Hu | reflexivity].
  - rewrite Hi in *. field. lra.
Qed.

(** ** Main properties of calculate_iou *)

(** C4: for boxes with [x1 <= x2] and [y1 <= y2], zero-area boxes included,
    [calculate_iou] is claimed to return a number in [0, 1] without
    crashing.  Here both boxes satisfy the data model, have zero area and
    touch, the union is 0 and the division raises. *)
Theorem calculate_iou_raises_on_touching_zero_area_boxes :
  let person_box := mkBox 5 5 5 5 in
  let item_box := mkBox 5 5 5 9 in
  well_formed person_box /\ well_formed item_box
  /\ calculate_iou person_box item_box = None.
Proof.
  cbv zeta. split; [|split].
  - split; cbn; lra.
  - split; cbn; lra.
  - reflexivity.
Qed.

(** C8: [calculate_iou] is symmetric and a box has IoU 1.0 with itself.
    On a zero-area box [A] that satisfies the data model the self
    comparison divides by a zero union and raises instead of returning
    1.0. *)
Theorem calculate_iou_self_raises_on_zero_area (A : Box) :
  well_formed A -> (box_area A == 0)%Q -> calculate_iou A A = None.
Proof.
  intros HA Hz. apply calculate_iou_raises_iff; try assumption.
  destruct HA as [Hx Hy].
  rewrite !Q.max_id, !Q.min_id. repeat split; assumption.
Qed.

Lemma calculate_iou_self_raises_on_zero_area_witness :
  calculate_iou (mkBox 3 4 3 4) (mkBox 3 4 3 4) = None.
Proof.
  apply (calculate_iou_self_raises_on_zero_area (mkBox 3 4 3 4)).
  - split; cbn; lra.
  - reflexivity.
Defined.

(** ** calculate_ppe_scores *)

Lemma raw_score_weight_sum (weights : gmap string Z) (items : list Detection) :
  raw_score weights items = weight_sum weights items.
Proof.
  unfold raw_score.
  assert (forall acc,
    fold_left (fun score ppe => score + default 0 (weights !! d_class ppe)) items acc
    = acc + weight_sum weights items) as H.
  { induction items as [|it items IH]; intros acc; simpl.
    - lia.
    - rewrite IH. unfold weight_of. lia. }
  rewrite H. lia.
Qed.

Lemma clamp_score_range (score : Z) : 0 <= clamp_score score <= 100.
Proof. unfold clamp_score. lia. Qed.

(** What [scores_loop] leaves under a key: the clamped sum when the key is
    the ID of one of the persons, the previous content otherwise. *)
Lemma scores_loop_lookup (weights : gmap string Z) (assigned_ppe : gmap Z (list Detection))
    (persons : list Person) (scores : gmap Z Z) (k : Z) :
  scores_loop weights persons assigned_ppe scores !! k =
    if decide (k ∈ map p_id persons)
    then Some (clamp_score (weight_sum weights (items_of assigned_ppe k)))
    else scores !! k.
Proof.
  revert scores. induction persons as [|p persons IH]; intros scores.
  - cbn [scores_loop map]. destruct (decide (k ∈ [])) as [H|_]; [|reflexivity].
    by apply elem_of_nil in H.
  - cbn [scores_loop map]. cbv zeta. rewrite IH.
    destruct (decide (k ∈ map p_id persons)) as [H1|H1];
      destruct (decide (k ∈ p_id p :: map p_id persons)) as [H2|H2].
    + reflexivity.
    + exfalso. apply H2. by apply elem_of_cons; right.
    + apply elem_of_cons in H2 as [->|H2]; [|contradiction].
      rewrite lookup_insert_eq. unfold items_of.
      destruct (assigned_ppe !! p_id p); simpl.
      * by rewrite raw_score_weight_sum.
      * reflexivity.
    + rewrite lookup_insert_ne; [reflexivity|].
      intros Heq. apply H2. apply elem_of_cons. by left.
Qed.

Lemma calculate_ppe_scores_lookup (weights : gmap string Z)
    (persons : list Person) (assigned_ppe : gmap Z (list Detection)) (k : Z) :
  calculate_ppe_scores_with weights persons assigned_ppe !! k =
    if decide (k ∈ map p_id persons)
    then Some (clamp_score (weight_sum weights (items_of assigned_ppe k)))
    else None.
Proof.
  unfold calculate_ppe_scores_with. rewrite scores_loop_lookup.
  destruct (decide _); [reflexivity | apply lookup_empty].
Qed.

(** C3: every person's score is [clamp(sum of weight(item.class_label) over
    the person's assigned items, 0, 100)], a label absent from the weight
    table counts 0, and three items of weight 40 on one person make a raw
    120 and a score of exactly 100. *)
Theorem calculate_ppe_scores_is_clamped_weight_sum
    (weights : gmap string Z) (persons : list Person)
    (assigned_ppe : gmap Z (list Detection)) (p : Person) :
  p ∈ persons ->
  calculate_ppe_scores_with weights persons assigned_ppe !! p_id p
    = Some (Z.max 0 (Z.min 100
              (weight_sum weights (items_of assigned_ppe (p_id p)))))
  /\ (forall item, weights !! d_class item = None ->
        weight_of weights item = 0)
  /\ (forall i1 i2 i3,
        weight_of weights i1 = 40 -> weight_of weights i2 = 40 ->
        weight_of weights i3 = 40 ->
        assigned_ppe !! p_id p = Some [i1; i2; i3] ->
        raw_score weights [i1; i2; i3] = 120
        /\ calculate_ppe_scores_with weights persons assigned_ppe !! p_id p
           = Some 100).
Proof.
  intros Hp.
  assert (p_id p ∈ map p_id persons) as Hin
    by (apply list_elem_of_fmap; exists p; done).
  assert (calculate_ppe_scores_with weights persons assigned_ppe !! p_id p
          = Some (clamp_score (weight_sum weights (items_of assigned_ppe (p_id p)))))
    as Hscore.
  { rewrite calculate_ppe_scores_lookup.
    destruct (decide _); [reflexivity | contradiction]. }
  split; [exact Hscore|]. split.
  - intros item Hnone. unfold weight_of. by rewrite Hnone.
  - intros i1 i2 i3 H1 H2 H3 HA.
    rewrite Hscore. unfold items_of. rewrite HA.
    rewrite raw_score_weight_sum. cbn [weight_sum foldr default id].
    rewrite H1, H2, H3. split; reflexivity.
Qed.

Lemma calculate_ppe_scores_is_clamped_weight_sum_witness :
  let three := [hardhat (mkBox 0 0 2 2); hardhat (mkBox 1 1 3 3);
                hardhat (mkBox 2 2 5 5)] in
  let p := mkPerson (mkDet "Person" (mkBox 0 0 10 10) 1) 1 in
  calculate_ppe_scores [p] {[1 := three]} !! 1 = Some 100
  /\ raw_score settings.PPE_WEIGHTS three = 120.
Proof.
  intros three p.
  destruct (calculate_ppe_scores_is_clamped_weight_sum
              settings.PPE_WEIGHTS [p] {[1 := three]} p) as (_ & _ & H).
  - apply list_elem_of_here.
  - destruct (H (hardhat (mkBox 0 0 2 2)) (hardhat (mkBox 1 1 3 3))
                (hardhat (mkBox 2 2 5 5))) as [Hraw Hscore];
      try reflexivity.
    split; [exact Hscore | exact Hraw].
Defined.

(** C10: the key set of the score map is exactly the set of the input
    persons' IDs, and a person without assigned items has the explicit
    entry 0. *)
Theorem calculate_ppe_scores_keys_are_person_ids
    (weights : gmap string Z) (persons : list Person)
    (assigned_ppe : gmap Z (list Detection)) :
  dom (calculate_ppe_scores_with weights persons assigned_ppe)
    = list_to_set (map p_id persons)
  /\ (forall p, p ∈ persons -> items_of assigned_ppe (p_id p) = [] ->
        calculate_ppe_scores_with weights persons assigned_ppe !! p_id p
          = Some 0).
Proof.
  split.
  - apply set_eq. intros k.
    rewrite elem_of_dom, elem_of_list_to_set, calculate_ppe_scores_lookup.
    destruct (decide _) as [H|H]; split; intros H'; try done.
  - intros p Hp Hnone.
    rewrite calculate_ppe_scores_lookup.
    destruct (decide _) as [_|H].
    + rewrite Hnone. reflexivity.
    + exfalso. apply H. apply list_elem_of_fmap. exists p. done.
Qed.

Lemma calculate_ppe_scores_keys_are_person_ids_witness :
  let p1 := mkPerson (mkDet "Person" (mkBox 0 0 10 10) 1) 1 in
  let p2 := mkPerson (mkDet "Person" (mkBox 20 0 30 10) 1) 2 in
  let A : gmap Z (list Detection) := {[1 := [hardhat (mkBox 0 0 2 2)]]} in
  dom (calculate_ppe_scores [p1; p2] A) = {[1; 2]}
  /\ calculate_ppe_scores [p1; p2] A !! 2 = Some 0.
Proof.
  intros p1 p2 A.
  destruct (calculate_ppe_scores_keys_are_person_ids
              settings.PPE_WEIGHTS [p1; p2] A) as [Hdom Hzero].
  split.
  - unfold calculate_ppe_scores. rewrite Hdom. cbn. set_solver.
  - apply (Hzero p2).
    + apply list_elem_of_further, list_elem_of_here.
    + reflexivity.
Defined.

(** ** The sort of assign_ppe_to_persons *)

Section SortedDesc.
Context {A : Type} (key : A -> Q).

Let ge (a b : A) : Prop := (key b <= key a)%Q.

Lemma insert_desc_perm (x : A) (l : list A) :
  Permutation (x :: l) (insert_desc key x l).
Proof.
  induction l as [|y l IH]; simpl.
  - reflexivity.
  - destruct (Qltb (key x) (key y)).
    + rewrite perm_swap. by apply perm_skip.
    + reflexivity.
Qed.

Lemma sorted_desc_perm (l : list A) : Permutation l (sorted_desc key l).
Proof.
  induction l as [|x l IH]; simpl.
  - reflexivity.
  - rewrite <- insert_desc_perm. by apply perm_skip.
Qed.

Lemma insert_desc_sorted (x : A) (l : list A) :
  StronglySorted ge l -> StronglySorted ge (insert_desc key x l).
Proof.
  induction 1 as [|y l Hs IH Hall]; simpl.
  - repeat constructor.
  - destruct (Qltb (key x) (key y)) eqn:E.
    + constructor; [exact IH|].
      rewrite <- insert_desc_perm. constructor; [|exact Hall].
      apply Qltb_lt in E. unfold ge. lra.
    + apply Qltb_ge in E.
      constructor; [by constructor|].
      constructor; [exact E|].
      eapply Forall_impl; [exact Hall|].
      intros z Hz. unfold ge in *. lra.
Qed.

Lemma sorted_desc_sorted (l : list A) : StronglySorted ge (sorted_desc key l).
Proof.
  induction l as [|x l IH]; simpl.
  - constructor.
  - by apply insert_desc_sorted.
Qed.

(** Stability: elements of equal key keep their input order. *)
Lemma insert_desc_stable (v : Q) (x : A) (l : list A) :
  List.filter (fun y => Qeq_bool (key y) v) (insert_desc key x l)
  = List.filter (fun y => Qeq_bool (key y) v) (x :: l).
Proof.
  induction l as [|y l IH]; [reflexivity|].
  cbn [insert_desc]. destruct (Qltb (key x) (key y)) eqn:E; [|reflexivity].
  cbn [List.filter] in *. rewrite IH.
  destruct (Qeq_bool (key x) v) eqn:Ex; [|reflexivity].
  destruct (Qeq_bool (key y) v) eqn:Ey; [|reflexivity].
  apply Qltb_lt in E. apply Qeq_bool_iff in Ex, Ey. lra.
Qed.

Lemma sorted_desc_stable (v : Q) (l : list A) :
  List.filter (fun y => Qeq_bool (key y) v) (sorted_desc key l)
  = List.filter (fun y => Qeq_bool (key y) v) l.
Proof.
  induction l as [|x l IH]; [reflexivity|].
  cbn [sorted_desc foldr]. rewrite insert_desc_stable.
  cbn [List.filter]. fold (sorted_desc key l). by rewrite IH.
Qed.
End SortedDesc.

(** ** The inner loop of assign_ppe_to_persons *)

Section BestPerson.
Variable thr : Q.
Variable ppe : Detection.

(** The loop started from [(best_iou, best_person)] either keeps its
    starting pair because nobody beats [best_iou] and reaches the
    threshold, or ends on the first person attaining the greatest such
    IoU. *)
Lemma best_person_loop_spec (persons : list Person) :
  forall (best_iou : Q) (best_person : option Person),
  (forall q, q ∈ persons -> is_Some (iou_with ppe q)) ->
  exists r, best_person_loop thr ppe persons best_iou best_person = Some r
    /\ ((r = best_person
         /\ forall q w, q ∈ persons -> iou_with ppe q = Some w ->
              ~ ((best_iou < w)%Q /\ (thr <= w)%Q))
        \/ (exists p l1 l2 v,
              r = Some p /\ persons = l1 ++ p :: l2
              /\ iou_with ppe p = Some v
              /\ (best_iou < v)%Q /\ (thr <= v)%Q
              /\ (forall q w, q ∈ l1 -> iou_with ppe q = Some w -> (w < v)%Q)
              /\ (forall q w, q ∈ l2 -> iou_with ppe q = Some w -> (w <= v)%Q))).
Proof.
  induction persons as [|person rest IH]; intros b bp Hdef.
  - exists bp. split; [reflexivity|]. left. split; [reflexivity|].
    intros q w Hq. by apply elem_of_nil in Hq.
  - destruct (Hdef person) as [cur Hcur]; [apply list_elem_of_here|].
    assert (forall q, q ∈ rest -> is_Some (iou_with ppe q)) as Hrest
      by (intros q Hq; apply Hdef; by apply list_elem_of_further).
    cbn [best_person_loop]. unfold iou_with in Hcur. rewrite Hcur.
    fold (iou_with ppe person) in Hcur.
    destruct (Qltb b cur && Qle_bool thr cur) eqn:Hcond.
    + apply andb_true_iff in Hcond as [Hlt Hle].
      apply Qltb_lt in Hlt. apply Qle_bool_iff in Hle.
      destruct (IH cur (Some person) Hrest) as (r & Hr & Hcase).
      exists r. split; [exact Hr|]. right.
      destruct Hcase as [[-> Hno] | (p & l1 & l2 & v & -> & -> & Hv & Hbv & Htv & H1 & H2)].
      * exists person, [], rest, cur. repeat split; try done.
        -- intros q w Hq. by apply elem_of_nil in Hq.
        -- intros q w Hq Hw. specialize (Hno q w Hq Hw).
           destruct (Qlt_le_dec cur w) as [Hgt|Hok]; [|exact Hok].
           exfalso. apply Hno. split; [exact Hgt | lra].
      * exists p, (person :: l1), l2, v. repeat split; try done; [lra|].
        intros q w Hq Hw. apply elem_of_cons in Hq as [->|Hq].
        -- rewrite Hcur in Hw. injection Hw as <-. exact Hbv.
        -- by apply (H1 q w).
    + destruct (IH b bp Hrest) as (r & Hr & Hcase).
      exists r. split; [exact Hr|].
      assert (~ ((b < cur)%Q /\ (thr <= cur)%Q)) as Hnot.
      { intros [Hlt Hle]. apply Qltb_lt in Hlt. apply Qle_bool_iff in Hle.
        rewrite Hlt, Hle in Hcond. discriminate. }
      destruct Hcase as [[-> Hno] | (p & l1 & l2 & v & -> & -> & Hv & Hbv & Htv & H1 & H2)].
      * left. split; [reflexivity|].
        intros q w Hq Hw. apply elem_of_cons in Hq as [->|Hq].
        -- rewrite Hcur in Hw. injection Hw as <-. exact Hnot.
        -- by apply (Hno q w).
      * right. exists p, (person :: l1), l2, v. repeat split; try done.
        intros q w Hq Hw. apply elem_of_cons in Hq as [->|Hq].
        -- rewrite Hcur in Hw. injection Hw as <-.
           destruct (Qlt_le_dec cur v) as [Hok|Hge]; [exact Hok|].
           exfalso. apply Hnot. split; lra.
        -- by apply (H1 q w).
Qed.

(** The loop as the assigner starts it. *)
Lemma best_person_for_spec (persons : list Person) :
  (forall q, q ∈ persons -> is_Some (iou_with ppe q)) ->
  (best_person_for thr persons ppe = Some None
     /\ no_candidate thr persons ppe)
  \/ (exists p, best_person_for thr persons ppe = Some (Some p)
        /\ first_best thr persons ppe p).
Proof.
  intros Hdef. unfold best_person_for.
  destruct (best_person_loop_spec persons 0%Q None Hdef) as (r & Hr & Hcase).
  destruct Hcase as [[-> Hno] | (p & l1 & l2 & v & -> & -> & Hv & Hbv & Htv & H1 & H2)].
  - left. split; [exact Hr|]. exact Hno.
  - right. exists p. split; [exact Hr|].
    exists l1, l2, v. repeat split; done.
Qed.

(** It raises as soon as one IoU computation does. *)
Lemma best_person_loop_raises (persons : list Person) :
  forall (best_iou : Q) (best_person : option Person) q,
  q ∈ persons -> iou_with ppe q = None ->
  best_person_loop thr ppe persons best_iou best_person = None.
Proof.
  induction persons as [|person rest IH]; intros b bp q Hq Hnone.
  - by apply elem_of_nil in Hq.
  - cbn [best_person_loop].
    destruct (calculate_iou (p_box person) (d_box ppe)) as [cur|] eqn:Hcur;
      [|reflexivity].
    apply elem_of_cons in Hq as [->|Hq].
    + unfold iou_with in Hnone. congruence.
    + destruct (_ && _); by apply (IH _ _ q).
Qed.
End BestPerson.

(** ** The outer loop of assign_ppe_to_persons *)

Lemma dd_append_lookup (pid k : Z) (ppe : Detection)
    (assigned_ppe : gmap Z (list Detection)) :
  dd_append pid ppe assigned_ppe !! k =
    if decide (pid = k) then Some (items_of assigned_ppe k ++ [ppe])
    else assigned_ppe !! k.
Proof.
  unfold dd_append. rewrite lookup_insert.
  destruct (decide (pid = k)) as [->|]; reflexivity.
Qed.

Lemma owner_id_Some (thr : Q) (persons : list Person) (ppe : Detection) (p : Person) :
  best_person_for thr persons ppe = Some (Some p) ->
  owner_id thr persons ppe = Some (p_id p).
Proof. unfold owner_id. by intros ->. Qed.

Lemma owner_id_None (thr : Q) (persons : list Person) (ppe : Detection) :
  best_person_for thr persons ppe = Some None ->
  owner_id thr persons ppe = None.
Proof. unfold owner_id. by intros ->. Qed.

(** After the loop each key holds what it held before followed by the
    items filed under it, in processing order; a key that held nothing and
    received nothing stays absent. *)
Lemma assign_loop_lookup (thr : Q) (persons : list Person) (items : list Detection) :
  forall assigned_ppe : gmap Z (list Detection),
  all_iou_defined persons items ->
  exists A, assign_loop thr persons items assigned_ppe = Some A
    /\ forall k,
         A !! k =
           match filter (fun it => owner_id thr persons it = Some k) items with
           | [] => assigned_ppe !! k
           | l => Some (items_of assigned_ppe k ++ l)
           end.
Proof.
  induction items as [|ppe rest IH]; intros A0 Hdef.
  - exists A0. split; [reflexivity|]. intros k. reflexivity.
  - assert (all_iou_defined persons rest) as Hrest
      by (intros p it Hp Hit; apply Hdef; [done | by apply list_elem_of_further]).
    assert (forall q, q ∈ persons -> is_Some (iou_with ppe q)) as Hppe
      by (intros q Hq; apply Hdef; [done | apply list_elem_of_here]).
    cbn [assign_loop].
    destruct (best_person_for_spec thr ppe persons Hppe)
      as [[Hbest _] | (bp & Hbest & _)]; rewrite Hbest.
    + destruct (IH A0 Hrest) as (A & HA & Hlook).
      exists A. split; [exact HA|]. intros k.
      rewrite filter_cons_False; [apply Hlook|].
      by rewrite (owner_id_None _ _ _ Hbest).
    + destruct (IH (dd_append (p_id bp) ppe A0) Hrest) as (A & HA & Hlook).
      exists A. split; [exact HA|]. intros k.
      rewrite Hlook. unfold items_of. rewrite !dd_append_lookup.
      destruct (decide (p_id bp = k)) as [Hk|Hk].
      * rewrite filter_cons_True by (rewrite (owner_id_Some _ _ _ _ Hbest); congruence).
        unfold items_of. cbn [default id].
        destruct (filter _ rest) as [|x l]; [reflexivity|].
        by rewrite <- app_assoc.
      * rewrite filter_cons_False
          by (rewrite (owner_id_Some _ _ _ _ Hbest); congruence).
        reflexivity.
Qed.

(** The loop raises as soon as one IoU computation does. *)
Lemma assign_loop_raises (thr : Q) (persons : list Person) (items : list Detection) :
  forall (assigned_ppe : gmap Z (list Detection)) p it,
  p ∈ persons -> it ∈ items -> iou_with it p = None ->
  assign_loop thr persons items assigned_ppe = None.
Proof.
  induction items as [|ppe rest IH]; intros A0 p it Hp Hit Hnone.
  - by apply elem_of_nil in Hit.
  - cbn [assign_loop]. apply elem_of_cons in Hit as [->|Hit].
    + unfold best_person_for.
      by rewrite (best_person_loop_raises thr ppe persons _ _ p Hp Hnone).
    + destruct (best_person_for thr persons ppe) as [[bp|]|];
        [ | |reflexivity]; by apply (IH _ p it).
Qed.

Lemma all_iou_definedb_spec (persons : list Person) (items : list Detection) :
  all_iou_definedb persons items = true -> all_iou_defined persons items.
Proof.
  unfold all_iou_definedb, all_iou_defined. intros H p it Hp Hit.
  rewrite forallb_forall in H.
  apply list_elem_of_In in Hp. specialize (H p Hp).
  rewrite forallb_forall in H.
  apply list_elem_of_In in Hit. specialize (H it Hit).
  destruct (iou_with it p); [by eexists | discriminate].
Qed.

(** Person boxes of positive area are enough for the assigner not to
    raise. *)
Lemma all_iou_defined_positive_persons (persons : list Person) (items : list Detection) :
  (forall p, p ∈ persons -> well_formed (p_box p) /\ (0 < box_area (p_box p))%Q) ->
  (forall it, it ∈ items -> well_formed (d_box it)) ->
  all_iou_defined persons items.
Proof.
  intros Hp Hit p it Hpin Hitin.
  destruct (Hp p Hpin) as [Hwf Hpos].
  destruct (calculate_iou_returns (p_box p) (d_box it) Hwf (Hit it Hitin))
    as (v & Hv & _); [by left|].
  exists v. exact Hv.
Qed.

Lemma all_iou_defined_perm (persons : list Person) (items items' : list Detection) :
  Permutation items items' ->
  all_iou_defined persons items -> all_iou_defined persons items'.
Proof.
  intros Hperm Hdef p it Hp Hit. apply Hdef; [done|].
  by rewrite Hperm.
Qed.

(** Without a raising IoU computation the assigner returns. *)
Lemma assign_ppe_to_persons_returns (thr : Q) (persons : list Person)
    (items : list Detection) :
  all_iou_defined persons items ->
  exists A, assign_ppe_to_persons_with thr persons items = Some A.
Proof.
  intros Hdef.
  pose proof (all_iou_defined_perm _ _ _ (sorted_desc_perm ppe_area items) Hdef)
    as Hdef'.
  destruct (assign_loop_lookup thr persons _ ∅ Hdef') as (A & HA & _).
  by exists A.
Qed.

(** It raises when some IoU computation does. *)
Lemma assign_ppe_to_persons_raises (thr : Q) (persons : list Person)
    (items : list Detection) (p : Person) (it : Detection) :
  p ∈ persons -> it ∈ items -> iou_with it p = None ->
  assign_ppe_to_persons_with thr persons items = None.
Proof.
  intros Hp Hit Hnone. unfold assign_ppe_to_persons_with.
  apply (assign_loop_raises thr persons _ ∅ p it); [done| |done].
  by rewrite <- (sorted_desc_perm ppe_area items).
Qed.

(** ** Main properties of assign_ppe_to_persons *)

(** C1, as amended: when no IoU computation raises, the assigner returns an
    Assignment; it processes the items in descending order of area (a
    sorted permutation of the input in which items of equal area keep their
    input order); each item goes to the first person, in
    list order, that attains the greatest IoU against it, provided that IoU
    is strictly positive and at least the threshold, and is discarded when
    no person has such an IoU; the list under an ID is exactly the items
    filed under it, in processing order; an ID is a key only if it received
    an item; no item is under two IDs; and a person may receive several
    items. *)
Theorem assign_ppe_to_persons_greedy_largest_first
    (thr : Q) (persons : list Person) (items : list Detection) :
  all_iou_defined persons items ->
  exists A,
    assign_ppe_to_persons_with thr persons items = Some A
    /\ Permutation items (sorted_desc ppe_area items)
    /\ StronglySorted area_ge (sorted_desc ppe_area items)
    /\ (forall v,
          List.filter (fun it => Qeq_bool (ppe_area it) v)
                      (sorted_desc ppe_area items)
          = List.filter (fun it => Qeq_bool (ppe_area it) v) items)
    /\ (forall it, it ∈ items ->
          (exists p, best_person_for thr persons it = Some (Some p)
                     /\ first_best thr persons it p)
          \/ (best_person_for thr persons it = Some None
              /\ no_candidate thr persons it))
    /\ (forall k, items_of A k =
          filter (fun it => owner_id thr persons it = Some k)
                 (sorted_desc ppe_area items))
    /\ (forall k, k ∈ dom A <->
          exists it, it ∈ items /\ owner_id thr persons it = Some k)
    /\ (forall k1 k2 it,
          it ∈ items_of A k1 -> it ∈ items_of A k2 -> k1 = k2)
    /\ (exists ps its A',
          assign_ppe_to_persons ps its = Some A'
          /\ length (items_of A' 1) = 2%nat).
Proof.
  intros Hdef.
  pose proof (sorted_desc_perm ppe_area items) as Hperm.
  pose proof (all_iou_defined_perm _ _ _ Hperm Hdef) as Hdef'.
  destruct (assign_loop_lookup thr persons _ ∅ Hdef') as (A & HA & Hlook).
  assert (forall k, items_of A k =
            filter (fun it => owner_id thr persons it = Some k)
                   (sorted_desc ppe_area items)) as Hitems.
  { intros k. unfold items_of. rewrite Hlook, lookup_empty.
    destruct (filter _ _); reflexivity. }
  exists A. split; [exact HA|]. split; [exact Hperm|].
  split; [apply sorted_desc_sorted|].
  split; [intros v; apply sorted_desc_stable|].
  split; [|split; [exact Hitems|split; [|split]]].
  - intros it Hit.
    assert (forall q, q ∈ persons -> is_Some (iou_with it q)) as Hq
      by (intros q Hq; by apply Hdef).
    destruct (best_person_for_spec thr it persons Hq) as [H|H]; [by right|by left].
  - intros k. rewrite elem_of_dom, Hlook, lookup_empty.
    destruct (filter _ _) as [|x l] eqn:Hf.
    + split; [by intros [? [=]]|].
      intros (it & Hit & Hown). exfalso.
      assert (it ∈ filter (fun it => owner_id thr persons it = Some k)
                          (sorted_desc ppe_area items)) as Hin
        by (apply list_elem_of_filter; split; [done | by rewrite <- Hperm]).
      rewrite Hf in Hin. by apply elem_of_nil in Hin.
    + split; [intros _ | by eexists].
      assert (x ∈ filter (fun it => owner_id thr persons it = Some k)
                         (sorted_desc ppe_area items)) as Hin
        by (rewrite Hf; apply list_elem_of_here).
      apply list_elem_of_filter in Hin as [Hown Hin].
      exists x. split; [by rewrite Hperm | exact Hown].
  - intros k1 k2 it. rewrite !Hitems, !list_elem_of_filter.
    intros [H1 _] [H2 _]. congruence.
  - exists [person_at (mkBox 0 0 10 10) 1],
           [hardhat (mkBox 2 0 6 3); vest (mkBox 1 3 9 10)].
    eexists. split; vm_compute; reflexivity.
Qed.

Lemma assign_ppe_to_persons_greedy_largest_first_witness :
  let persons := [person_at (mkBox 0 0 10 10) 1; person_at (mkBox 20 0 30 10) 2] in
  let items := [hardhat (mkBox 2 0 6 3); vest (mkBox 21 3 29 10);
                hardhat (mkBox 50 50 60 60)] in
  all_iou_defined persons items
  /\ exists A, assign_ppe_to_persons persons items = Some A
       /\ forall k1 k2 it,
            it ∈ items_of A k1 -> it ∈ items_of A k2 -> k1 = k2.
Proof.
  intros persons items.
  assert (all_iou_defined persons items) as Hdef
    by (apply all_iou_definedb_spec; reflexivity).
  split; [exact Hdef|].
  destruct (assign_ppe_to_persons_greedy_largest_first
              settings.IOU_THRESHOLD persons items Hdef)
    as (A & HA & _ & _ & _ & _ & _ & _ & Hone & _).
  exists A. split; [exact HA | exact Hone].
Defined.

(** C1 as it is worded fails at the configured threshold 0: the only
    person has IoU 0 with the item, which reaches the threshold and is
    greater than that of every other person (there is none), yet the item
    is discarded. *)
Lemma assign_ppe_to_persons_skips_zero_iou_person :
  ~ (forall persons items A p it,
       assign_ppe_to_persons persons items = Some A ->
       it ∈ items ->
       spec_selected settings.IOU_THRESHOLD persons it p ->
       it ∈ items_of A (p_id p)).
Proof.
  intros H.
  pose (p := person_at (mkBox 0 0 10 10) 1).
  pose (it := hardhat (mkBox 20 20 30 30)).
  specialize (H [p] [it] ∅ p it).
  assert (it ∈ items_of (∅ : gmap Z (list Detection)) (p_id p)) as Hin.
  { apply H.
    - reflexivity.
    - apply list_elem_of_here.
    - split; [apply list_elem_of_here|].
      exists 0%Q. split; [reflexivity|]. split; [apply Qle_refl|].
      intros q Hq Hne. apply list_elem_of_singleton in Hq. contradiction. }
  unfold items_of in Hin. rewrite lookup_empty in Hin.
  by apply elem_of_nil in Hin.
Qed.

(** With the threshold at 0 an item is filed under a person exactly when
    some person has a strictly positive IoU with it. *)
Lemma best_person_for_zero_threshold (persons : list Person) (ppe : Detection) :
  (forall q, q ∈ persons -> is_Some (iou_with ppe q)) ->
  (exists p, best_person_for 0 persons ppe = Some (Some p))
  <-> (exists q w, q ∈ persons /\ iou_with ppe q = Some w /\ (0 < w)%Q).
Proof.
  intros Hdef.
  destruct (best_person_for_spec 0%Q ppe persons Hdef)
    as [[Hbest Hno] | (p & Hbest & (l1 & l2 & v & -> & Hv & Hpos & _))].
  - split.
    + intros [p Hp]. congruence.
    + intros (q & w & Hq & Hw & Hpos). exfalso.
      apply (Hno q w Hq Hw). split; lra.
  - split; [intros _ | by eexists].
    exists p, v. split; [|done].
    apply elem_of_app. right. apply list_elem_of_here.
Qed.

(** C6, as amended: with [IOU_THRESHOLD = 0] an item is assigned exactly
    when some person has a strictly positive IoU with it, the winner then
    being the first person that attains the greatest IoU; an item whose IoU
    with every person is 0 is assigned to nobody and the Assignment of that
    item alone is empty. *)
Theorem zero_threshold_still_requires_overlap
    (persons : list Person) (ppe : Detection) :
  (forall q, q ∈ persons -> is_Some (iou_with ppe q)) ->
  ((exists p, best_person_for settings.IOU_THRESHOLD persons ppe = Some (Some p))
   <-> (exists q w, q ∈ persons /\ iou_with ppe q = Some w /\ (0 < w)%Q))
  /\ (forall p, best_person_for settings.IOU_THRESHOLD persons ppe = Some (Some p) ->
        first_best settings.IOU_THRESHOLD persons ppe p)
  /\ ((forall q, q ∈ persons -> exists w, iou_with ppe q = Some w /\ (w == 0)%Q) ->
        best_person_for settings.IOU_THRESHOLD persons ppe = Some None
        /\ assign_ppe_to_persons persons [ppe] = Some ∅).
Proof.
  intros Hdef. split; [by apply best_person_for_zero_threshold|]. split.
  - intros p Hp.
    destruct (best_person_for_spec settings.IOU_THRESHOLD ppe persons Hdef)
      as [[Hbest _] | (p' & Hbest & Hfirst)]; congruence.
  - intros Hzero.
    assert (best_person_for settings.IOU_THRESHOLD persons ppe = Some None) as Hnone.
    { destruct (best_person_for_spec settings.IOU_THRESHOLD ppe persons Hdef)
        as [[Hbest _] | (p & Hbest & (l1 & l2 & v & -> & Hv & Hpos & _))];
        [exact Hbest|].
      exfalso. destruct (Hzero p) as (w & Hw & Hw0).
      - apply elem_of_app. right. apply list_elem_of_here.
      - rewrite Hv in Hw. injection Hw as <-. lra. }
    split; [exact Hnone|].
    unfold assign_ppe_to_persons, assign_ppe_to_persons_with.
    cbn [sorted_desc foldr insert_desc assign_loop].
    by rewrite Hnone.
Qed.

Lemma zero_threshold_still_requires_overlap_witness :
  let persons := [person_at (mkBox 0 0 10 10) 1; person_at (mkBox 20 0 30 10) 2] in
  let far := hardhat (mkBox 50 50 60 60) in
  assign_ppe_to_persons persons [far] = Some ∅.
Proof.
  intros persons far.
  destruct (zero_threshold_still_requires_overlap persons far) as (_ & _ & H).
  - intros q Hq. apply (all_iou_definedb_spec persons [far]);
      [reflexivity | exact Hq | apply list_elem_of_here].
  - apply H. intros q Hq.
    apply elem_of_cons in Hq as [->|Hq];
      [|apply list_elem_of_singleton in Hq as ->];
      exists 0%Q; split; reflexivity.
Defined.

(** C6 as it is worded fails: no input makes the assigner give an item to
    a person when the item's IoU with every person is 0. *)
Lemma no_assignment_without_overlap :
  ~ (exists persons ppe p,
       (forall q, q ∈ persons ->
          exists w, iou_with ppe q = Some w /\ (w == 0)%Q)
       /\ best_person_for settings.IOU_THRESHOLD persons ppe = Some (Some p)).
Proof.
  intros (persons & ppe & p & Hzero & Hbest).
  assert (forall q, q ∈ persons -> is_Some (iou_with ppe q)) as Hdef
    by (intros q Hq; destruct (Hzero q Hq) as (w & Hw & _); by eexists).
  destruct (best_person_for_spec settings.IOU_THRESHOLD ppe persons Hdef)
    as [[Hnone _] | (p' & _ & (l1 & l2 & v & -> & Hv & Hpos & _))];
    [congruence|].
  destruct (Hzero p') as (w & Hw & Hw0).
  - apply elem_of_app. right. apply list_elem_of_here.
  - rewrite Hv in Hw. injection Hw as <-. lra.
Qed.

(** ** The inner loop of track_persons *)

Section Nearest.
Variable c : Q * Q.

Let d2 (e : Z * TrackData) : Q := distance_sq c (center (snd e)).

(** Once the running minimum is [m], entries at least that far do not
    change the match. *)
Lemma nearest_loop_keep (items : list (Z * TrackData)) (k : Z) (m : Q) :
  (forall e, e ∈ items -> (m <= d2 e)%Q) ->
  nearest_loop c items (Some k) (Some m) = Some k.
Proof.
  induction items as [|[pid data] rest IH]; intros Hfar; [reflexivity|].
  cbn [nearest_loop]. cbv zeta.
  assert (Qltb (distance_sq c (center data)) m = false) as ->.
  { apply Qltb_ge. apply (Hfar (pid, data)). apply list_elem_of_here. }
  rewrite andb_false_r. apply IH.
  intros e He. apply Hfar. by apply list_elem_of_further.
Qed.

(** The first entry that attains the least distance wins, if that
    distance is below 50. *)
Lemma nearest_loop_first_min (l1 l2 : list (Z * TrackData)) (k : Z) (data : TrackData) :
  forall (matched_id : option Z) (min_distance_sq : option Q),
  (distance_sq c (center data) < 50 * 50)%Q ->
  beats min_distance_sq (distance_sq c (center data)) ->
  (forall e, e ∈ l1 -> (distance_sq c (center data) < d2 e)%Q) ->
  (forall e, e ∈ l2 -> (distance_sq c (center data) <= d2 e)%Q) ->
  nearest_loop c (l1 ++ (k, data) :: l2) matched_id min_distance_sq = Some k.
Proof.
  induction l1 as [|[pid0 data0] l1 IH]; intros m md Hnear Hbeats H1 H2.
  - cbn [app nearest_loop]. cbv zeta.
    apply Qltb_lt in Hnear. rewrite Hnear. cbn [andb].
    assert (match md with Some x => Qltb (distance_sq c (center data)) x
                        | None => true end = true) as ->.
    { destruct md as [x|]; [|reflexivity]. by apply Qltb_lt. }
    by apply nearest_loop_keep.
  - assert (distance_sq c (center data) < distance_sq c (center data0))%Q as Hlt
      by (apply (H1 (pid0, data0)); apply list_elem_of_here).
    assert (forall e, e ∈ l1 -> (distance_sq c (center data) < d2 e)%Q) as H1'
      by (intros e He; apply H1; by apply list_elem_of_further).
    cbn [app nearest_loop]. cbv zeta.
    destruct (_ && _); apply IH; try done.
Qed.

(** No entry is nearer than 50: no match. *)
Lemma nearest_loop_none (items : list (Z * TrackData)) :
  (forall e, e ∈ items -> (50 * 50 <= d2 e)%Q) ->
  nearest_loop c items None None = None.
Proof.
  induction items as [|[pid data] rest IH]; intros Hfar; [reflexivity|].
  cbn [nearest_loop]. cbv zeta.
  assert (Qltb (distance_sq c (center data)) (50 * 50) = false) as ->.
  { apply Qltb_ge. apply (Hfar (pid, data)). apply list_elem_of_here. }
  cbn [andb]. apply IH.
  intros e He. apply Hfar. by apply list_elem_of_further.
Qed.

(** What the loop returns is its starting match or the ID of an entry
    nearer than 50. *)
Lemma nearest_loop_result (items : list (Z * TrackData)) :
  forall (matched_id : option Z) (min_distance_sq : option Q) (k : Z),
  nearest_loop c items matched_id min_distance_sq = Some k ->
  matched_id = Some k
  \/ exists data, (k, data) ∈ items
       /\ (distance_sq c (center data) < 50 * 50)%Q.
Proof.
  induction items as [|[pid data] rest IH]; intros m md k Hk.
  - left. exact Hk.
  - cbn [nearest_loop] in Hk. cbv zeta in Hk.
    destruct (Qltb (distance_sq c (center data)) (50 * 50)) eqn:Hnear;
      cbn [andb] in Hk.
    + destruct (match md with Some x => _ | None => true end).
      * apply IH in Hk as [[= ->] | (data' & Hin & Hd)].
        -- right. exists data. split; [apply list_elem_of_here|].
           by apply Qltb_lt.
        -- right. exists data'. split; [by apply list_elem_of_further|done].
      * apply IH in Hk as [-> | (data' & Hin & Hd)]; [by left|].
        right. exists data'. split; [by apply list_elem_of_further|done].
    + apply IH in Hk as [-> | (data' & Hin & Hd)]; [by left|].
      right. exists data'. split; [by apply list_elem_of_further|done].
Qed.
End Nearest.

(** ** The track table *)

Lemma keys_dict_set (k k' : Z) (v : TrackData) (d : list (Z * TrackData)) :
  k' ∈ keys (dict_set k v d) <-> k' = k \/ k' ∈ keys d.
Proof.
  induction d as [|[k0 v0] d IH]; cbn [dict_set keys map fst].
  - rewrite list_elem_of_singleton. split; [by left|].
    intros [H|H]; [done | by apply elem_of_nil in H].
  - destruct (Z.eqb_spec k0 k) as [->|Hne]; cbn [keys map fst].
    + rewrite !elem_of_cons. tauto.
    + fold (keys (dict_set k v d)). fold (keys d).
      rewrite !elem_of_cons, IH. tauto.
Qed.

Lemma dict_set_NoDup (k : Z) (v : TrackData) (d : list (Z * TrackData)) :
  NoDup (keys d) -> NoDup (keys (dict_set k v d)).
Proof.
  induction d as [|[k0 v0] d IH]; cbn [dict_set keys map fst]; intros Hnd.
  - apply NoDup_singleton.
  - apply NoDup_cons in Hnd as [Hnotin Hnd].
    destruct (Z.eqb_spec k0 k) as [->|Hne]; cbn [keys map fst].
    + by apply NoDup_cons.
    + apply NoDup_cons. split; [|by apply IH].
      fold (keys (dict_set k v d)). rewrite keys_dict_set.
      intros [H|H]; [congruence | contradiction].
Qed.

(** A dict has one value per key. *)
Lemma keys_functional (d : list (Z * TrackData)) (k : Z) (v v' : TrackData) :
  NoDup (keys d) -> (k, v) ∈ d -> (k, v') ∈ d -> v = v'.
Proof.
  induction d as [|[k0 v0] d IH]; intros Hnd Hv Hv'.
  - by apply elem_of_nil in Hv.
  - cbn [keys map fst] in Hnd. apply NoDup_cons in Hnd as [Hnotin Hnd].
    assert (forall w, (k0, w) ∈ d -> False) as Hfresh.
    { intros w Hw. apply Hnotin. apply list_elem_of_fmap. by exists (k0, w). }
    apply elem_of_cons in Hv as [Heq|Hv];
      apply elem_of_cons in Hv' as [Heq'|Hv']; simplify_eq.
    + reflexivity.
    + by destruct (Hfresh v').
    + by destruct (Hfresh v).
    + by apply IH.
Qed.

(** The entry written by [dict_set] is the one found under its key. *)
Lemma dict_set_entry (k : Z) (v : TrackData) (d : list (Z * TrackData)) :
  (k, v) ∈ dict_set k v d.
Proof.
  induction d as [|[k0 v0] d IH]; cbn [dict_set].
  - apply list_elem_of_here.
  - destruct (Z.eqb k0 k); [apply list_elem_of_here|].
    by apply list_elem_of_further.
Qed.

Lemma purge_entry (current_time : Q) (d : list (Z * TrackData)) (e : Z * TrackData) :
  e ∈ purge current_time d
  <-> e ∈ d /\ (current_time - timestamp (snd e) < 2)%Q.
Proof.
  unfold purge. rewrite !list_elem_of_In, filter_In.
  unfold is_live. by rewrite Qltb_lt.
Qed.

Lemma keys_purge (current_time : Q) (d : list (Z * TrackData)) (k : Z) :
  k ∈ keys (purge current_time d) -> k ∈ keys d.
Proof.
  unfold keys. rewrite !list_elem_of_fmap.
  intros (e & -> & He). apply purge_entry in He as [He _]. by exists e.
Qed.

Lemma purge_NoDup (current_time : Q) (d : list (Z * TrackData)) :
  NoDup (keys d) -> NoDup (keys (purge current_time d)).
Proof.
  induction d as [|e d IH]; cbn [purge List.filter keys map]; intros Hnd.
  - constructor.
  - apply NoDup_cons in Hnd as [Hnotin Hnd].
    destruct (is_live current_time e); [|by apply IH].
    cbn [map]. apply NoDup_cons. split; [|by apply IH].
    intros Hin. apply Hnotin. by apply (keys_purge current_time).
Qed.

(** ** One iteration of track_persons *)

Lemma nearest_track_live (c : Q * Q) (items : list (Z * TrackData)) (k : Z) :
  nearest_track c items = Some k ->
  exists data, (k, data) ∈ items /\ (distance_sq c (center data) < 50 * 50)%Q.
Proof.
  intros H. apply nearest_loop_result in H as [[=]|H]. exact H.
Qed.

(** The identity a detection receives: that of a live track, or the next
    counter value. *)
Lemma track_one_cases (st : Tracker) (person : Detection) (t : Q) :
  let c := centroid (d_box person) in
  (exists k, nearest_track c (tracked_persons st) = Some k
     /\ k ∈ keys (tracked_persons st)
     /\ track_one st person t =
          (mkTracker (id_counter st)
                     (dict_set k (mkTrack c t) (tracked_persons st)),
           mkPerson person k))
  \/ (nearest_track c (tracked_persons st) = None
      /\ track_one st person t =
           (mkTracker (id_counter st + 1)
                      (dict_set (id_counter st + 1) (mkTrack c t)
                                (tracked_persons st)),
            mkPerson person (id_counter st + 1))).
Proof.
  intros c. unfold track_one. fold c.
  destruct (nearest_track c (tracked_persons st)) as [k|] eqn:E.
  - left. exists k. split; [reflexivity|]. split; [|reflexivity].
    apply nearest_track_live in E as (data & Hin & _).
    unfold keys. apply list_elem_of_fmap. by exists (k, data).
  - right. split; reflexivity.
Qed.

(** One iteration keeps the invariant, never lowers the counter, leaves
    the assigned ID live, and adds no key but the assigned ID. *)
Lemma track_one_step (st : Tracker) (person : Detection) (t : Q) :
  tracker_inv st ->
  let st' := fst (track_one st person t) in
  let p := snd (track_one st person t) in
  tracker_inv st'
  /\ id_counter st <= id_counter st'
  /\ p_det p = person
  /\ (forall k, k ∈ keys (tracked_persons st')
        <-> k = p_id p \/ k ∈ keys (tracked_persons st))
  /\ ((p_id p ∈ keys (tracked_persons st) /\ id_counter st' = id_counter st)
      \/ (p_id p = id_counter st + 1 /\ id_counter st' = id_counter st + 1)).
Proof.
  intros (Hc & Hnd & Hkeys).
  destruct (track_one_cases st person t) as [(k & _ & Hk & ->) | (_ & ->)];
    cbn [fst snd id_counter tracked_persons p_id p_det].
  - split; [|split; [lia|split; [reflexivity|split]]].
    + split; [exact Hc|]. split; [by apply dict_set_NoDup|].
      cbn [id_counter tracked_persons]. intros k'. rewrite keys_dict_set.
      intros [->|H]; by apply Hkeys.
    + intros k'. apply keys_dict_set.
    + left. done.
  - split; [|split; [lia|split; [reflexivity|split]]].
    + split; [cbn; lia|]. split; [by apply dict_set_NoDup|].
      cbn [id_counter tracked_persons]. intros k'. rewrite keys_dict_set.
      intros [->|H]; [lia|]. specialize (Hkeys k' H). lia.
    + intros k'. apply keys_dict_set.
    + right. done.
Qed.

(** ** Main properties of track_persons *)

Lemma track_one_matched (st : Tracker) (person : Detection) (t : Q) (k : Z) :
  nearest_track (centroid (d_box person)) (tracked_persons st) = Some k ->
  track_one st person t =
    (mkTracker (id_counter st)
       (dict_set k (mkTrack (centroid (d_box person)) t) (tracked_persons st)),
     mkPerson person k).
Proof. intros H. unfold track_one. by rewrite H. Qed.

Lemma track_one_minted (st : Tracker) (person : Detection) (t : Q) :
  nearest_track (centroid (d_box person)) (tracked_persons st) = None ->
  track_one st person t =
    (mkTracker (id_counter st + 1)
       (dict_set (id_counter st + 1) (mkTrack (centroid (d_box person)) t)
                 (tracked_persons st)),
     mkPerson person (id_counter st + 1)).
Proof. intros H. unfold track_one. by rewrite H. Qed.

(** C2: with a single live track, a detection whose centroid is at most 49
    pixels from the stored centroid keeps the track's ID; in general the
    match is the nearest live track within the 50-pixel threshold, wherever
    it stands in the table (the first one on equal distances); and a
    detection at least 51 pixels from every live track receives the next
    counter value.  Distances are compared through their squares. *)
Theorem track_one_matches_nearest_within_50
    (st : Tracker) (person : Detection) (t : Q) :
  let c := centroid (d_box person) in
  let st' := fst (track_one st person t) in
  let p := snd (track_one st person t) in
  (forall k data,
     tracked_persons st = [(k, data)] ->
     (distance_sq c (center data) <= 49 * 49)%Q ->
     p_id p = k /\ id_counter st' = id_counter st
     /\ tracked_persons st' = [(k, mkTrack c t)])
  /\ (forall l1 k data l2,
        tracked_persons st = l1 ++ (k, data) :: l2 ->
        (distance_sq c (center data) < 50 * 50)%Q ->
        (forall e, e ∈ l1 ->
           (distance_sq c (center data) < distance_sq c (center (snd e)))%Q) ->
        (forall e, e ∈ l2 ->
           (distance_sq c (center data) <= distance_sq c (center (snd e)))%Q) ->
        p_id p = k /\ id_counter st' = id_counter st)
  /\ ((forall e, e ∈ tracked_persons st ->
         (51 * 51 <= distance_sq c (center (snd e)))%Q) ->
      p_id p = id_counter st + 1
      /\ id_counter st' = id_counter st + 1
      /\ (id_counter st + 1, mkTrack c t) ∈ tracked_persons st')
  /\ (forall now : nat -> Q,
        snd (track_persons now st [person])
          = [snd (track_one st person (now 0%nat))]).
Proof.
  intros c st' p. subst st' p.
  assert (forall l1 k data l2,
    tracked_persons st = l1 ++ (k, data) :: l2 ->
    (distance_sq c (center data) < 50 * 50)%Q ->
    (forall e, e ∈ l1 ->
       (distance_sq c (center data) < distance_sq c (center (snd e)))%Q) ->
    (forall e, e ∈ l2 ->
       (distance_sq c (center data) <= distance_sq c (center (snd e)))%Q) ->
    nearest_track c (tracked_persons st) = Some k) as Hnear.
  { intros l1 k data l2 -> Hd H1 H2. unfold nearest_track.
    apply nearest_loop_first_min; done. }
  split; [|split; [|split]];
    [| | |intros now; unfold track_persons; cbn [track_loop];
          by destruct (track_one st person (now 0%nat))].
  - intros k data Htab Hd.
    assert (nearest_track c (tracked_persons st) = Some k) as Hk.
    { apply (Hnear [] k data []); [done| |intros e He..];
        [lra | by apply elem_of_nil in He | by apply elem_of_nil in He]. }
    rewrite (track_one_matched st person t k Hk).
    cbn [fst snd p_id id_counter tracked_persons].
    repeat split. rewrite Htab. cbn [dict_set]. by rewrite Z.eqb_refl.
  - intros l1 k data l2 Htab Hd H1 H2.
    rewrite (track_one_matched st person t k (Hnear l1 k data l2 Htab Hd H1 H2)).
    by cbn.
  - intros Hfar.
    assert (nearest_track c (tracked_persons st) = None) as Hnone.
    { unfold nearest_track. apply nearest_loop_none.
      intros e He. specialize (Hfar e He). lra. }
    rewrite (track_one_minted st person t Hnone).
    cbn [fst snd p_id id_counter tracked_persons].
    repeat split. apply dict_set_entry.
Qed.

Lemma track_one_matches_nearest_within_50_witness :
  let st := mkTracker 3 [(2, mkTrack (100, 100)%Q 0); (3, mkTrack (120, 100)%Q 0)] in
  let near := person_det (mkBox 110 80 140 130) in
  let far := person_det (mkBox 300 300 340 380) in
  p_id (snd (track_one st near 1)) = 3
  /\ p_id (snd (track_one st far 1)) = 4.
Proof.
  intros st near far.
  destruct (track_one_matches_nearest_within_50 st near 1) as (_ & Hnear & _).
  destruct (track_one_matches_nearest_within_50 st far 1) as (_ & _ & Hfar & _).
  split.
  - apply (Hnear [(2, mkTrack (100, 100)%Q 0)] 3 (mkTrack (120, 100)%Q 0) []).
    + reflexivity.
    + reflexivity.
    + intros e He. apply list_elem_of_singleton in He as ->. reflexivity.
    + intros e He. by apply elem_of_nil in He.
  - apply Hfar.
    intros e He. apply elem_of_cons in He as [->|He];
      [|apply list_elem_of_singleton in He as ->]; vm_compute; discriminate.
Defined.

(** ** The loop of track_persons *)

Lemma track_loop_cons (now : nat -> Q) (tick : nat) (st : Tracker)
    (person : Detection) (rest : list Detection) :
  track_loop now tick st (person :: rest) =
    (fst (track_loop now (S tick) (fst (track_one st person (now tick))) rest),
     snd (track_one st person (now tick))
       :: snd (track_loop now (S tick) (fst (track_one st person (now tick))) rest)).
Proof.
  cbn [track_loop].
  destruct (track_one st person (now tick)) as [st1 p]. cbn [fst snd].
  by destruct (track_loop now (S tick) st1 rest).
Qed.

Lemma track_loop_app (now : nat -> Q) (l1 l2 : list Detection) :
  forall (tick : nat) (st : Tracker),
  track_loop now tick st (l1 ++ l2) =
    (fst (track_loop now (tick + length l1) (fst (track_loop now tick st l1)) l2),
     snd (track_loop now tick st l1)
       ++ snd (track_loop now (tick + length l1) (fst (track_loop now tick st l1)) l2)).
Proof.
  induction l1 as [|d l1 IH]; intros tick st.
  - cbn [app track_loop fst snd length]. rewrite Nat.add_0_r.
    by destruct (track_loop now tick st l2).
  - cbn [app length]. rewrite !track_loop_cons, IH. cbn [fst snd].
    by rewrite Nat.add_succ_r.
Qed.

(** The loop keeps the invariant; the counter only grows; the keys it adds
    are counter values issued during the loop; no key is removed; every
    assigned ID is a key at the end of the loop. *)
Lemma track_loop_facts (now : nat -> Q) (dets : list Detection) :
  forall (tick : nat) (st : Tracker),
  tracker_inv st ->
  let st' := fst (track_loop now tick st dets) in
  let out := snd (track_loop now tick st dets) in
  tracker_inv st'
  /\ id_counter st <= id_counter st'
  /\ map p_det out = dets
  /\ (forall k, k ∈ keys (tracked_persons st') ->
        k ∈ keys (tracked_persons st)
        \/ id_counter st < k <= id_counter st')
  /\ (forall k, k ∈ keys (tracked_persons st) ->
        k ∈ keys (tracked_persons st'))
  /\ (forall p, p ∈ out -> p_id p ∈ keys (tracked_persons st')).
Proof.
  induction dets as [|d rest IH]; intros tick st Hinv.
  - cbn [track_loop fst snd map].
    split; [exact Hinv|]. split; [lia|]. split; [reflexivity|].
    split; [by left|]. split; [done|].
    intros p Hp. by apply elem_of_nil in Hp.
  - rewrite track_loop_cons. cbn [fst snd].
    destruct (track_one_step st d (now tick) Hinv)
      as (Hinv1 & Hc1 & Hdet1 & Hkeys1 & Hid1).
    destruct (IH (S tick) _ Hinv1) as (Hinv2 & Hc2 & Hdet2 & Hnew2 & Hold2 & Hout2).
    split; [exact Hinv2|]. split; [lia|].
    split; [cbn [map]; by rewrite Hdet1, Hdet2|].
    split; [|split].
    + intros k Hk. apply Hnew2 in Hk as [Hk|Hk]; [|right; lia].
      apply Hkeys1 in Hk as [->|Hk]; [|by left].
      destruct Hid1 as [[Hlive _]|[-> Hc']]; [by left | right; lia].
    + intros k Hk. apply Hold2, Hkeys1. by right.
    + intros p Hp. apply elem_of_cons in Hp as [->|Hp]; [|by apply Hout2].
      apply Hold2, Hkeys1. by left.
Qed.

(** [track_persons] in terms of the loop and the purge. *)
Lemma track_persons_eq (now : nat -> Q) (st : Tracker) (dets : list Detection) :
  track_persons now st dets =
    (mkTracker (id_counter (fst (track_loop now 0 st dets)))
       (purge (now (length dets))
              (tracked_persons (fst (track_loop now 0 st dets)))),
     snd (track_loop now 0 st dets)).
Proof.
  unfold track_persons. by destruct (track_loop now 0 st dets).
Qed.

(** One frame: the invariant is kept, assigned IDs are positive counter
    values, and an ID that was issued before the frame and is no longer
    live is neither assigned nor live again. *)
Lemma track_persons_facts (now : nat -> Q) (st : Tracker) (dets : list Detection) :
  tracker_inv st ->
  let st' := fst (track_persons now st dets) in
  let out := snd (track_persons now st dets) in
  tracker_inv st'
  /\ id_counter st <= id_counter st'
  /\ (forall p, p ∈ out -> 0 < p_id p <= id_counter st')
  /\ (forall p, p ∈ out ->
        p_id p ∈ keys (tracked_persons st)
        \/ id_counter st < p_id p <= id_counter st')
  /\ (forall k, k ∉ keys (tracked_persons st) -> k <= id_counter st ->
        (k ∉ keys (tracked_persons st')) /\ (k ∉ map p_id out)).
Proof.
  intros Hinv. rewrite track_persons_eq. cbn [fst snd].
  destruct (track_loop_facts now dets 0%nat st Hinv)
    as (Hinv1 & Hc1 & _ & Hnew1 & _ & Hout1).
  destruct Hinv1 as (Hc & Hnd & Hkeys).
  split; [|split; [exact Hc1|split; [|split]]].
  - split; [exact Hc|]. split; [by apply purge_NoDup|].
    cbn [id_counter tracked_persons]. intros k Hk.
    apply Hkeys. by apply (keys_purge (now (length dets))).
  - intros p Hp. cbn [id_counter]. by apply Hkeys, Hout1.
  - intros p Hp. cbn [id_counter]. by apply Hnew1, Hout1.
  - intros k Hnot Hle. cbn [tracked_persons]. split.
    + intros Hk. apply keys_purge, Hnew1 in Hk as [Hk|Hk]; [contradiction|lia].
    + intros Hk. apply list_elem_of_fmap in Hk as (p & -> & Hp).
      apply Hout1, Hnew1 in Hp as [Hp|Hp]; [contradiction|lia].
Qed.

(** ** Runs of the tracker *)

Lemma init_tracker_inv : tracker_inv init_tracker.
Proof.
  split; [cbn; lia|]. split; [constructor|].
  intros k Hk. by apply elem_of_nil in Hk.
Qed.

Lemma track_frames_cons (st : Tracker) (now : nat -> Q) (dets : list Detection)
    (rest : list ((nat -> Q) * list Detection)) :
  track_frames st ((now, dets) :: rest) =
    (fst (track_frames (fst (track_persons now st dets)) rest),
     snd (track_persons now st dets)
       :: snd (track_frames (fst (track_persons now st dets)) rest)).
Proof.
  cbn [track_frames].
  destruct (track_persons now st dets) as [st1 out]. cbn [fst snd].
  by destruct (track_frames st1 rest).
Qed.

Lemma track_frames_inv (frames : list ((nat -> Q) * list Detection)) :
  forall st, tracker_inv st -> tracker_inv (fst (track_frames st frames)).
Proof.
  induction frames as [|[now dets] rest IH]; intros st Hinv; [exact Hinv|].
  rewrite track_frames_cons. cbn [fst]. apply IH.
  by apply track_persons_facts.
Qed.

Lemma tracker_after_inv (history : list ((nat -> Q) * list Detection)) :
  tracker_inv (tracker_after history).
Proof. apply track_frames_inv, init_tracker_inv. Qed.

(** An ID that the counter has passed and that is not live is never
    assigned again, however many frames follow. *)
Lemma retired_id_never_assigned (frames : list ((nat -> Q) * list Detection)) :
  forall st k,
  tracker_inv st ->
  k ∉ keys (tracked_persons st) -> k <= id_counter st ->
  forall out, out ∈ snd (track_frames st frames) -> k ∉ map p_id out.
Proof.
  induction frames as [|[now dets] rest IH]; intros st k Hinv Hnot Hle out Hout.
  - by apply elem_of_nil in Hout.
  - rewrite track_frames_cons in Hout. cbn [snd] in Hout.
    destruct (track_persons_facts now st dets Hinv)
      as (Hinv' & Hc & _ & _ & Hretired).
    destruct (Hretired k Hnot Hle) as [Hnot' Hout'].
    apply elem_of_cons in Hout as [->|Hout]; [exact Hout'|].
    apply (IH _ k Hinv' Hnot'); [lia | exact Hout].
Qed.

(** C7: after the matching of a frame every track whose timestamp is at
    least 2.0 seconds old is removed from the live set and the others are
    kept; assigned IDs are positive; the counter never decreases and an
    assigned ID is that of a track live before the frame or a counter value
    above every value issued before; an ID that has been issued and is not
    live any more is never assigned in any later frame; and the next
    unmatched detection receives the next counter value. *)
Theorem stale_tracks_purged_ids_never_reused
    (history : list ((nat -> Q) * list Detection))
    (now : nat -> Q) (dets : list Detection) :
  let st := tracker_after history in
  let matched := fst (track_loop now 0 st dets) in
  let st' := fst (track_persons now st dets) in
  let out := snd (track_persons now st dets) in
  let current_time := now (length dets) in
  (forall k data, (k, data) ∈ tracked_persons matched ->
     (2 <= current_time - timestamp data)%Q ->
     k ∉ keys (tracked_persons st'))
  /\ (forall e, e ∈ tracked_persons st' <->
        e ∈ tracked_persons matched
        /\ (current_time - timestamp (snd e) < 2)%Q)
  /\ (forall p, p ∈ out -> 0 < p_id p <= id_counter st')
  /\ id_counter st <= id_counter st'
  /\ (forall p, p ∈ out ->
        p_id p ∈ keys (tracked_persons st)
        \/ id_counter st < p_id p <= id_counter st')
  /\ (forall k later out',
        0 < k <= id_counter st' -> k ∉ keys (tracked_persons st') ->
        out' ∈ snd (track_frames st' later) -> k ∉ map p_id out')
  /\ (forall d t,
        nearest_track (centroid (d_box d)) (tracked_persons st') = None ->
        p_id (snd (track_one st' d t)) = id_counter st' + 1).
Proof.
  intros st matched st' out current_time.
  pose proof (tracker_after_inv history) as Hinv. fold st in Hinv.
  destruct (track_persons_facts now st dets Hinv)
    as (Hinv' & Hc & Hpos & Hfresh & _).
  fold st' out in Hinv', Hc, Hpos, Hfresh.
  destruct (track_loop_facts now dets 0%nat st Hinv) as ((_ & Hnd & _) & _).
  fold matched in Hnd.
  assert (tracked_persons st' = purge current_time (tracked_persons matched))
    as Htab by (unfold st'; by rewrite track_persons_eq).
  split; [|split; [|split; [exact Hpos|split; [exact Hc|split; [exact Hfresh|split]]]]].
  - intros k data Hin Hold Hk. rewrite Htab in Hk.
    unfold keys in Hk. apply list_elem_of_fmap in Hk as ([k' data'] & Heq & He).
    cbn [fst] in Heq. subst k'.
    apply purge_entry in He as [He Hyoung]. cbn [snd] in Hyoung.
    assert (data = data') as -> by exact (keys_functional _ k _ _ Hnd Hin He).
    lra.
  - intros e. rewrite Htab. apply purge_entry.
  - intros k later out' [_ Hle] Hnot Hout'.
    by apply (retired_id_never_assigned later st' k).
  - intros d t Hnone. by rewrite (track_one_minted st' d t Hnone).
Qed.

Lemma stale_tracks_purged_ids_never_reused_witness :
  let history := [(fun _ : nat => 0%Q, [person_det (mkBox 90 90 110 110)])] in
  let now := fun _ : nat => 3%Q in
  let dets := [person_det (mkBox 400 400 440 480)] in
  let st' := fst (track_persons now (tracker_after history) dets) in
  let back := [(fun _ : nat => 4%Q, [person_det (mkBox 90 90 110 110)])] in
  (1 ∉ keys (tracked_persons st'))
  /\ map p_id (snd (track_persons now (tracker_after history) dets)) = [2]
  /\ forall out', out' ∈ snd (track_frames st' back) -> 1 ∉ map p_id out'.
Proof.
  intros history now dets st' back.
  destruct (stale_tracks_purged_ids_never_reused history now dets)
    as (Hpurged & _ & _ & _ & _ & Hretired & _).
  assert (1 ∉ keys (tracked_persons st')) as Hgone.
  { apply (Hpurged 1 (mkTrack (centroid (mkBox 90 90 110 110)) 0)).
    - apply list_elem_of_here.
    - vm_compute. discriminate. }
  split; [exact Hgone|]. split; [reflexivity|].
  intros out' Hout'. apply (Hretired 1 back out'); [|exact Hgone|exact Hout'].
  vm_compute. split; [reflexivity | discriminate].
Defined.

(** C5, as amended: a track matched within a frame is not consumed.  Every
    ID assigned to an earlier detection of the frame is still a key of the
    live table when the next detection is processed, so that detection may
    match it again and receive the same ID.  What is guaranteed is that a
    detection that matches no track receives a new counter value, greater
    than every ID assigned earlier in the frame and every ID live before. *)
Theorem matched_track_not_consumed_minted_id_fresh
    (history : list ((nat -> Q) * list Detection))
    (now : nat -> Q) (l1 : list Detection) (d : Detection) (l2 : list Detection) :
  let st := tracker_after history in
  let st1 := fst (track_loop now 0 st l1) in
  let out1 := snd (track_loop now 0 st l1) in
  let p := snd (track_one st1 d (now (length l1))) in
  (exists out2, snd (track_persons now st (l1 ++ d :: l2)) = out1 ++ p :: out2)
  /\ (forall q, q ∈ out1 -> p_id q ∈ keys (tracked_persons st1))
  /\ (forall k, nearest_track (centroid (d_box d)) (tracked_persons st1) = Some k ->
        p_id p = k /\ k ∈ keys (tracked_persons st1))
  /\ (nearest_track (centroid (d_box d)) (tracked_persons st1) = None ->
        p_id p = id_counter st1 + 1
        /\ (forall q, q ∈ out1 -> p_id q < p_id p)
        /\ (forall k, k ∈ keys (tracked_persons st) -> k < p_id p)).
Proof.
  intros st st1 out1 p.
  pose proof (tracker_after_inv history) as Hinv. fold st in Hinv.
  destruct (track_loop_facts now l1 0%nat st Hinv)
    as (Hinv1 & Hc1 & _ & _ & Hold1 & Hout1).
  fold st1 out1 in Hinv1, Hc1, Hold1, Hout1.
  destruct Hinv1 as (_ & _ & Hkeys1).
  split; [|split; [exact Hout1|split]].
  - rewrite track_persons_eq. cbn [snd].
    rewrite track_loop_app, track_loop_cons. cbn [fst snd].
    fold st1 out1. rewrite Nat.add_0_l. fold p. by eexists.
  - intros k Hk. unfold p. rewrite (track_one_matched st1 d _ k Hk).
    split; [reflexivity|].
    apply nearest_track_live in Hk as (data & Hin & _).
    unfold keys. apply list_elem_of_fmap. by exists (k, data).
  - intros Hnone. unfold p. rewrite (track_one_minted st1 d _ Hnone).
    cbn [snd p_id]. split; [reflexivity|]. split.
    + intros q Hq. specialize (Hkeys1 _ (Hout1 q Hq)). lia.
    + intros k Hk. specialize (Hkeys1 _ (Hold1 k Hk)). lia.
Qed.

Lemma matched_track_not_consumed_minted_id_fresh_witness :
  let now := fun _ : nat => 0%Q in
  let a := person_det (mkBox 90 90 110 110) in
  let b := person_det (mkBox 94 90 114 110) in
  let c := person_det (mkBox 400 400 440 480) in
  map p_id (snd (track_persons now init_tracker [a; b; c])) = [1; 1; 2]
  /\ p_id (snd (track_one (fst (track_loop now 0 init_tracker [a; b])) c 0)) = 2.
Proof.
  intros now a b c. split; [reflexivity|].
  destruct (matched_track_not_consumed_minted_id_fresh [] now [a; b] c [])
    as (_ & _ & _ & Hminted).
  destruct Hminted as (Hid & _); [reflexivity|]. exact Hid.
Defined.

(** C5 as it is worded fails: the second detection of the very first frame
    matches the track created for the first one, and both receive ID 1. *)
Lemma two_detections_one_frame_same_id :
  ~ (forall (now : nat -> Q) (dets : list Detection),
       NoDup (map p_id (snd (track_persons now init_tracker dets)))).
Proof.
  intros H.
  specialize (H (fun _ => 0%Q)
                [person_det (mkBox 90 90 110 110);
                 person_det (mkBox 94 90 114 110)]).
  vm_compute in H. apply NoDup_cons in H as [Hnotin _].
  apply Hnotin. apply list_elem_of_here.
Qed.

(** ** process_frame *)

Lemma track_persons_dets (now : nat -> Q) (st : Tracker) (dets : list Detection) :
  map p_det (snd (track_persons now st dets)) = dets.
Proof.
  rewrite track_persons_eq. cbn [snd].
  assert (forall l tick s, map p_det (snd (track_loop now tick s l)) = l) as H.
  { induction l as [|d l IH]; intros tick s; [reflexivity|].
    rewrite track_loop_cons. cbn [snd map]. rewrite IH. f_equal.
    unfold track_one. by destruct (nearest_track _ _). }
  apply H.
Qed.

(** C9 as it is worded fails: a detection labelled "vehicle" is not a
    person, and it is not in the equipment list either, since its label has
    no weight. *)
Lemma unweighted_label_dropped_from_equipment :
  ~ (forall now st detections r d,
       snd (process_detections now st detections) = Some r ->
       d ∈ detections -> d_class d <> "Person" ->
       d ∈ r_ppe_items r).
Proof.
  intros H.
  pose (truck := mkDet "vehicle" (mkBox 50 50 90 90) 1).
  specialize (H (fun _ => 0%Q) init_tracker [truck]
                (mkResult [] [] ∅) truck).
  assert (truck ∈ @nil Detection) as Hin.
  { apply H; [reflexivity | apply list_elem_of_here | discriminate]. }
  by apply elem_of_nil in Hin.
Qed.

(** * Further properties of the geometry utility *)

(** A box whose right edge is left of its left edge, or whose bottom edge is
    above its top edge, makes the candidate overlap degenerate. *)
Lemma inverted_box_degenerate_overlap (A B : Box) :
  ~ well_formed A \/ ~ well_formed B ->
  (Qmin (bx2 A) (bx2 B) < Qmax (bx1 A) (bx1 B))%Q
  \/ (Qmin (by2 A) (by2 B) < Qmax (by1 A) (by1 B))%Q.
Proof.
  pose proof (Q.le_max_l (bx1 A) (bx1 B)).
  pose proof (Q.le_max_r (bx1 A) (bx1 B)).
  pose proof (Q.le_max_l (by1 A) (by1 B)).
  pose proof (Q.le_max_r (by1 A) (by1 B)).
  pose proof (Q.le_min_l (bx2 A) (bx2 B)).
  pose proof (Q.le_min_r (bx2 A) (bx2 B)).
  pose proof (Q.le_min_l (by2 A) (by2 B)).
  pose proof (Q.le_min_r (by2 A) (by2 B)).
  unfold well_formed.
  destruct (Qlt_le_dec (Qmin (bx2 A) (bx2 B)) (Qmax (bx1 A) (bx1 B))) as [Hx|Hx];
    [by left|].
  destruct (Qlt_le_dec (Qmin (by2 A) (by2 B)) (Qmax (by1 A) (by1 B))) as [Hy|Hy];
    [by right|].
  intros [Hn|Hn]; exfalso; apply Hn; split; lra.
Qed.

Lemma well_formed_dec (A : Box) : well_formed A \/ ~ well_formed A.
Proof.
  unfold well_formed.
  destruct (Qlt_le_dec (bx2 A) (bx1 A)) as [Hx|Hx];
    [right; intros [H _]; lra|].
  destruct (Qlt_le_dec (by2 A) (by1 A)) as [Hy|Hy];
    [right; intros [_ H]; lra|].
  by left.
Qed.

(** X1: whatever the two boxes are, also boxes that violate [x1 <= x2] or
    [y1 <= y2], a value returned by [calculate_iou] lies in [0, 1]. *)
Theorem iou_value_in_unit_interval (A B : Box) (v : Q) :
  calculate_iou A B = Some v -> (0 <= v <= 1)%Q.
Proof.
  intros Hv.
  destruct (well_formed_dec A) as [HA|HA];
    [destruct (well_formed_dec B) as [HB|HB]|].
  - exact (calculate_iou_range A B v HA HB Hv).
  - rewrite (calculate_iou_disjoint A B) in Hv
      by (apply inverted_box_degenerate_overlap; by right).
    injection Hv as <-. lra.
  - rewrite (calculate_iou_disjoint A B) in Hv
      by (apply inverted_box_degenerate_overlap; by left).
    injection Hv as <-. lra.
Qed.

Lemma iou_value_in_unit_interval_witness :
  exists v, calculate_iou (mkBox 0 0 2 2) (mkBox 1 1 3 3) = Some v
            /\ (0 <= v <= 1)%Q.
Proof.
  eexists. split; [reflexivity|].
  apply (iou_value_in_unit_interval (mkBox 0 0 2 2) (mkBox 1 1 3 3)).
  reflexivity.
Defined.

(** X2: a box with [x2 < x1] or [y2 < y1] has IoU exactly 0 with every
    box, on either side of the call. *)
Theorem iou_of_inverted_box_is_zero (A B : Box) :
  ~ well_formed A \/ ~ well_formed B -> calculate_iou A B = Some 0%Q.
Proof.
  intros H. apply calculate_iou_disjoint.
  by apply inverted_box_degenerate_overlap.
Qed.

Lemma iou_of_inverted_box_is_zero_witness :
  calculate_iou (mkBox 10 0 0 10) (mkBox 0 0 10 10) = Some 0%Q.
Proof.
  apply iou_of_inverted_box_is_zero. left.
  intros [H _]. cbn in H. revert H. apply Qlt_not_le. reflexivity.
Defined.

(** The raising inputs, without any assumption on the boxes. *)
Lemma calculate_iou_None_iff (A B : Box) :
  calculate_iou A B = None <->
    (Qmax (bx1 A) (bx1 B) <= Qmin (bx2 A) (bx2 B))%Q
    /\ (Qmax (by1 A) (by1 B) <= Qmin (by2 A) (by2 B))%Q
    /\ (box_area A == 0)%Q /\ (box_area B == 0)%Q.
Proof.
  destruct (well_formed_dec A) as [HA|HA];
    [destruct (well_formed_dec B) as [HB|HB]|].
  - by apply calculate_iou_raises_iff.
  - assert (~ well_formed A \/ ~ well_formed B) as Hinv by (by right).
    apply inverted_box_degenerate_overlap in Hinv.
    rewrite (calculate_iou_disjoint A B Hinv).
    split; [discriminate|]. intros (Hx & Hy & _). lra.
  - assert (~ well_formed A \/ ~ well_formed B) as Hinv by (by left).
    apply inverted_box_degenerate_overlap in Hinv.
    rewrite (calculate_iou_disjoint A B Hinv).
    split; [discriminate|]. intros (Hx & Hy & _). lra.
Qed.

Lemma calculate_iou_self_positive_witness :
  exists v, calculate_iou (mkBox 1 2 4 6) (mkBox 1 2 4 6) = Some v /\ (v == 1)%Q.
Proof.
  apply (calculate_iou_self_positive (mkBox 1 2 4 6)); reflexivity.
Defined.

(** A product of two bounded non-negative factors that reaches the product
    of the bounds, when that is positive, has both factors at their
    bounds. *)
Lemma product_reaches_bound (w h W H : Q) :
  (0 <= w <= W)%Q -> (0 <= h <= H)%Q -> (0 < w * h)%Q ->
  (w * h == W * H)%Q -> (w == W)%Q /\ (h == H)%Q.
Proof.
  intros [Hw0 HwW] [Hh0 HhH] Hpos Heq.
  assert (0 < w)%Q as Hw by nra.
  assert (0 < h)%Q as Hh by nra.
  split.
  - destruct (Qlt_le_dec w W) as [Hlt|Hge]; [|lra]. exfalso. nra.
  - destruct (Qlt_le_dec h H) as [Hlt|Hge]; [|lra]. exfalso. nra.
Qed.

(** X6: for boxes that satisfy the data model, an IoU of 1 is returned
    only when the two boxes have the same four coordinates. *)
Theorem iou_one_only_for_equal_boxes (A B : Box) (v : Q) :
  well_formed A -> well_formed B ->
  calculate_iou A B = Some v -> (v == 1)%Q ->
  (bx1 A == bx1 B)%Q /\ (by1 A == by1 B)%Q
  /\ (bx2 A == bx2 B)%Q /\ (by2 A == by2 B)%Q.
Proof.
  intros HA HB Hv H1.
  destruct (Qlt_le_dec (Qmin (bx2 A) (bx2 B)) (Qmax (bx1 A) (bx1 B))) as [Hx|Hx].
  { rewrite calculate_iou_disjoint in Hv by (left; exact Hx).
    injection Hv as <-. lra. }
  destruct (Qlt_le_dec (Qmin (by2 A) (by2 B)) (Qmax (by1 A) (by1 B))) as [Hy|Hy].
  { rewrite calculate_iou_disjoint in Hv by (right; exact Hy).
    injection Hv as <-. lra. }
  rewrite calculate_iou_overlap in Hv by assumption.
  destruct (intersection_bounds A B HA HB Hx Hy) as (H0 & HleA & HleB).
  apply py_div_Some in Hv as [HU ->].
  pose proof (Q.le_max_l (bx1 A) (bx1 B)).
  pose proof (Q.le_max_r (bx1 A) (bx1 B)).
  pose proof (Q.le_max_l (by1 A) (by1 B)).
  pose proof (Q.le_max_r (by1 A) (by1 B)).
  pose proof (Q.le_min_l (bx2 A) (bx2 B)).
  pose proof (Q.le_min_r (bx2 A) (bx2 B)).
  pose proof (Q.le_min_l (by2 A) (by2 B)).
  pose proof (Q.le_min_r (by2 A) (by2 B)).
  destruct HA as [HAx HAy]. destruct HB as [HBx HBy].
  set (w := (Qmin (bx2 A) (bx2 B) - Qmax (bx1 A) (bx1 B))%Q) in *.
  set (h := (Qmin (by2 A) (by2 B) - Qmax (by1 A) (by1 B))%Q) in *.
  set (u := (box_area A + box_area B - w * h)%Q) in *.
  assert (w * h == u)%Q as Hiu.
  { assert (w * h == (w * h / u) * u)%Q as -> by (field; exact HU).
    rewrite H1. ring. }
  assert (w * h == box_area A)%Q as HeqA by (unfold u in Hiu; lra).
  assert (w * h == box_area B)%Q as HeqB by (unfold u in Hiu; lra).
  assert (0 < w * h)%Q as Hpos.
  { destruct (Qlt_le_dec 0 (w * h)) as [Hp|Hn]; [exact Hp|].
    exfalso. apply HU. unfold u. lra. }
  unfold box_area in HeqA, HeqB.
  assert (0 <= w <= bx2 A - bx1 A)%Q as HwbA by (unfold w; lra).
  assert (0 <= h <= by2 A - by1 A)%Q as HhbA by (unfold h; lra).
  assert (0 <= w <= bx2 B - bx1 B)%Q as HwbB by (unfold w; lra).
  assert (0 <= h <= by2 B - by1 B)%Q as HhbB by (unfold h; lra).
  destruct (product_reaches_bound w h _ _ HwbA HhbA Hpos HeqA) as [HwA HhA].
  destruct (product_reaches_bound w h _ _ HwbB HhbB Hpos HeqB) as [HwB HhB].
  unfold w in HwA, HwB. unfold h in HhA, HhB.
  repeat split; lra.
Qed.

Lemma iou_one_only_for_equal_boxes_witness :
  (bx1 (mkBox 1 2 4 6) == bx1 (mkBox 1 2 4 6))%Q
  /\ (by1 (mkBox 1 2 4 6) == by1 (mkBox 1 2 4 6))%Q
  /\ (bx2 (mkBox 1 2 4 6) == bx2 (mkBox 1 2 4 6))%Q
  /\ (by2 (mkBox 1 2 4 6) == by2 (mkBox 1 2 4 6))%Q.
Proof.
  apply (iou_one_only_for_equal_boxes (mkBox 1 2 4 6) (mkBox 1 2 4 6) (12 # 12)).
  - split; cbn; lra.
  - split; cbn; lra.
  - reflexivity.
  - reflexivity.
Defined.

(** X7: for boxes that satisfy the data model, the returned IoU is 0
    exactly when the overlap rectangle has no width or no height; boxes
    that only share an edge or a corner have IoU 0. *)
Theorem iou_zero_iff_no_interior_overlap (A B : Box) (v : Q) :
  well_formed A -> well_formed B ->
  calculate_iou A B = Some v ->
  ((v == 0)%Q <->
     (Qmin (bx2 A) (bx2 B) <= Qmax (bx1 A) (bx1 B))%Q
     \/ (Qmin (by2 A) (by2 B) <= Qmax (by1 A) (by1 B))%Q).
Proof.
  intros HA HB Hv.
  destruct (Qlt_le_dec (Qmin (bx2 A) (bx2 B)) (Qmax (bx1 A) (bx1 B))) as [Hx|Hx].
  { rewrite calculate_iou_disjoint in Hv by (left; exact Hx).
    injection Hv as <-. split; [intros _; left; lra | reflexivity]. }
  destruct (Qlt_le_dec (Qmin (by2 A) (by2 B)) (Qmax (by1 A) (by1 B))) as [Hy|Hy].
  { rewrite calculate_iou_disjoint in Hv by (right; exact Hy).
    injection Hv as <-. split; [intros _; right; lra | reflexivity]. }
  rewrite calculate_iou_overlap in Hv by assumption.
  apply py_div_Some in Hv as [HU ->].
  set (w := (Qmin (bx2 A) (bx2 B) - Qmax (bx1 A) (bx1 B))%Q) in *.
  set (h := (Qmin (by2 A) (by2 B) - Qmax (by1 A) (by1 B))%Q) in *.
  set (u := (box_area A + box_area B - w * h)%Q) in *.
  assert (0 <= w)%Q as Hw by (unfold w; lra).
  assert (0 <= h)%Q as Hh by (unfold h; lra).
  split.
  - intros Hz.
    assert (w * h == 0)%Q as Hwh.
    { assert (w * h == (w * h / u) * u)%Q as -> by (field; exact HU).
      rewrite Hz. ring. }
    apply Qmult_integral in Hwh as [Hw0|Hh0]; [left|right].
    + unfold w in Hw0. lra.
    + unfold h in Hh0. lra.
  - intros [Hx'|Hy'].
    + assert (w == 0)%Q as -> by (unfold w; lra). field. exact HU.
    + assert (h == 0)%Q as -> by (unfold h; lra). field. exact HU.
Qed.

Lemma iou_zero_iff_no_interior_overlap_witness :
  exists v, calculate_iou (mkBox 0 0 10 10) (mkBox 10 0 20 10) = Some v
            /\ (v == 0)%Q.
Proof.
  eexists. split; [reflexivity|].
  apply (iou_zero_iff_no_interior_overlap (mkBox 0 0 10 10) (mkBox 10 0 20 10)).
  - split; cbn; lra.
  - split; cbn; lra.
  - reflexivity.
  - left. vm_compute. discriminate.
Defined.

(** X3: for arbitrary boxes the call raises exactly when the candidate
    overlap is not degenerate and both boxes have zero area. *)
Theorem iou_raises_exactly_on_zero_union (A B : Box) :
  calculate_iou A B = None <->
    (Qmax (bx1 A) (bx1 B) <= Qmin (bx2 A) (bx2 B))%Q
    /\ (Qmax (by1 A) (by1 B) <= Qmin (by2 A) (by2 B))%Q
    /\ (box_area A == 0)%Q /\ (box_area B == 0)%Q.
Proof. apply calculate_iou_None_iff. Qed.

(** * Further properties of the assigner *)

(** Some IoU computation raises when not all are defined. *)
Lemma all_iou_definedb_false (persons : list Person) (items : list Detection) :
  all_iou_definedb persons items = false ->
  exists p it, p ∈ persons /\ it ∈ items /\ iou_with it p = None.
Proof.
  unfold all_iou_definedb.
  induction persons as [|p persons IHp]; cbn [forallb]; [discriminate|].
  intros H. apply andb_false_iff in H as [H|H].
  - assert (exists it, it ∈ items /\ iou_with it p = None) as (it & Hit & Hnone).
    { clear IHp. induction items as [|it items IHi]; cbn [forallb] in H;
        [discriminate|].
      destruct (iou_with it p) eqn:E.
      - cbn [andb] in H. destruct (IHi H) as (it' & Hit' & Hnone).
        exists it'. split; [by apply list_elem_of_further | exact Hnone].
      - exists it. split; [apply list_elem_of_here | exact E]. }
    exists p, it. split; [apply list_elem_of_here | done].
  - destruct (IHp H) as (p' & it & Hp' & Hit & Hnone).
    exists p', it. split; [by apply list_elem_of_further | done].
Qed.

(** The assigner returns exactly when every IoU computation is defined, and
    then each key holds the items filed under it, in processing order. *)
Lemma assign_ppe_to_persons_Some (thr : Q) (persons : list Person)
    (items : list Detection) (A : gmap Z (list Detection)) :
  assign_ppe_to_persons_with thr persons items = Some A ->
  all_iou_defined persons items
  /\ forall k, items_of A k =
       filter (fun it => owner_id thr persons it = Some k)
              (sorted_desc ppe_area items).
Proof.
  intros HA.
  assert (all_iou_defined persons items) as Hdef.
  { destruct (all_iou_definedb persons items) eqn:E;
      [by apply all_iou_definedb_spec|].
    apply all_iou_definedb_false in E as (p & it & Hp & Hit & Hnone).
    rewrite (assign_ppe_to_persons_raises thr persons items p it Hp Hit Hnone) in HA.
    discriminate. }
  split; [exact Hdef|].
  pose proof (all_iou_defined_perm _ _ _ (sorted_desc_perm ppe_area items) Hdef)
    as Hdef'.
  destruct (assign_loop_lookup thr persons _ ∅ Hdef') as (A' & HA' & Hlook).
  unfold assign_ppe_to_persons_with in HA. rewrite HA' in HA.
  injection HA as ->.
  intros k. unfold items_of. rewrite Hlook, lookup_empty.
  by destruct (filter _ _).
Qed.

(** X8: the assigner raises exactly when some person's box and some
    item's box touch and both have zero area; on every other input it
    returns an Assignment. *)
Theorem assigner_raises_exactly_on_zero_area_pair
    (thr : Q) (persons : list Person) (items : list Detection) :
  assign_ppe_to_persons_with thr persons items = None <->
    exists p it, p ∈ persons /\ it ∈ items
      /\ (Qmax (bx1 (p_box p)) (bx1 (d_box it))
            <= Qmin (bx2 (p_box p)) (bx2 (d_box it)))%Q
      /\ (Qmax (by1 (p_box p)) (by1 (d_box it))
            <= Qmin (by2 (p_box p)) (by2 (d_box it)))%Q
      /\ (box_area (p_box p) == 0)%Q /\ (box_area (d_box it) == 0)%Q.
Proof.
  split.
  - intros Hnone.
    destruct (all_iou_definedb persons items) eqn:E.
    + apply all_iou_definedb_spec in E.
      destruct (assign_ppe_to_persons_returns thr persons items E) as (A & HA).
      congruence.
    + apply all_iou_definedb_false in E as (p & it & Hp & Hit & Hraise).
      exists p, it. split; [done|]. split; [done|].
      by apply calculate_iou_None_iff.
  - intros (p & it & Hp & Hit & Hgeo).
    apply (assign_ppe_to_persons_raises thr persons items p it Hp Hit).
    by apply calculate_iou_None_iff.
Qed.

Lemma filter_StronglySorted {A} (R : A -> A -> Prop) (P : A -> Prop)
    `{forall x, Decision (P x)} (l : list A) :
  StronglySorted R l -> StronglySorted R (filter P l).
Proof.
  induction 1 as [|x l Hs IH Hall]; [constructor|].
  rewrite filter_cons. destruct (decide (P x)); [|exact IH].
  constructor; [exact IH|].
  rewrite List.Forall_forall in Hall. apply List.Forall_forall.
  intros y Hy. apply Hall.
  apply list_elem_of_In. apply (proj2 (list_elem_of_In _ _)) in Hy.
  by apply list_elem_of_filter in Hy as [_ Hy].
Qed.

(** X9: in a returned Assignment the items of each person are listed in
    descending order of bounding-box area. *)
Theorem assigned_items_sorted_by_area
    (thr : Q) (persons : list Person) (items : list Detection)
    (A : gmap Z (list Detection)) (k : Z) :
  assign_ppe_to_persons_with thr persons items = Some A ->
  StronglySorted area_ge (items_of A k).
Proof.
  intros HA. apply assign_ppe_to_persons_Some in HA as [_ Hitems].
  rewrite Hitems. apply filter_StronglySorted.
  apply (sorted_desc_sorted ppe_area).
Qed.

Lemma assigned_items_sorted_by_area_witness :
  let persons := [person_at (mkBox 0 0 10 10) 1] in
  let items := [hardhat (mkBox 2 0 6 3); vest (mkBox 1 3 9 10)] in
  exists A, assign_ppe_to_persons persons items = Some A
            /\ StronglySorted area_ge (items_of A 1).
Proof.
  intros persons items.
  eexists. split; [vm_compute; reflexivity|].
  apply (assigned_items_sorted_by_area settings.IOU_THRESHOLD persons items).
  vm_compute. reflexivity.
Defined.

(** X10: the processing order keeps items of equal area in their input
    order (Python's sort is stable, also with [reverse=True]). *)
Theorem processing_order_keeps_ties_in_input_order
    (items : list Detection) (v : Q) :
  List.filter (fun it => Qeq_bool (ppe_area it) v) (sorted_desc ppe_area items)
  = List.filter (fun it => Qeq_bool (ppe_area it) v) items.
Proof. apply sorted_desc_stable. Qed.

(** The person chosen for an item is an input person whose IoU with the
    item is positive and reaches the threshold. *)
Lemma owner_id_overlaps (thr : Q) (persons : list Person) (it : Detection) (k : Z) :
  (forall q, q ∈ persons -> is_Some (iou_with it q)) ->
  owner_id thr persons it = Some k ->
  exists p v, p ∈ persons /\ p_id p = k /\ iou_with it p = Some v
              /\ (0 < v)%Q /\ (thr <= v)%Q.
Proof.
  intros Hdef Hown. unfold owner_id in Hown.
  destruct (best_person_for_spec thr it persons Hdef)
    as [[Hbest _] | (p & Hbest & (l1 & l2 & v & -> & Hv & Hpos & Hthr & _))];
    rewrite Hbest in Hown; [discriminate|].
  injection Hown as <-. exists p, v.
  split; [apply elem_of_app; right; apply list_elem_of_here | done].
Qed.

(** X11: every item listed under an ID in a returned Assignment is one of
    the input items, and the ID is that of an input person whose box has a
    strictly positive IoU with the item, at least the threshold. *)
Theorem assigned_item_overlaps_its_person
    (thr : Q) (persons : list Person) (items : list Detection)
    (A : gmap Z (list Detection)) (k : Z) (it : Detection) :
  assign_ppe_to_persons_with thr persons items = Some A ->
  it ∈ items_of A k ->
  it ∈ items
  /\ exists p v, p ∈ persons /\ p_id p = k /\ iou_with it p = Some v
                 /\ (0 < v)%Q /\ (thr <= v)%Q.
Proof.
  intros HA Hit. apply assign_ppe_to_persons_Some in HA as [Hdef Hitems].
  rewrite Hitems in Hit. apply list_elem_of_filter in Hit as [Hown Hin].
  rewrite <- (sorted_desc_perm ppe_area items) in Hin.
  split; [exact Hin|].
  apply (owner_id_overlaps thr persons it k); [|exact Hown].
  intros q Hq. by apply Hdef.
Qed.

Lemma assigned_item_overlaps_its_person_witness :
  let persons := [person_at (mkBox 0 0 10 10) 1; person_at (mkBox 20 0 30 10) 2] in
  let items := [hardhat (mkBox 2 0 6 3); vest (mkBox 21 3 29 10)] in
  exists p v, p ∈ persons /\ p_id p = 2
              /\ iou_with (vest (mkBox 21 3 29 10)) p = Some v
              /\ (0 < v)%Q /\ (settings.IOU_THRESHOLD <= v)%Q.
Proof.
  intros persons items.
  eapply (assigned_item_overlaps_its_person settings.IOU_THRESHOLD persons items
            _ 2 (vest (mkBox 21 3 29 10))).
  - vm_compute. reflexivity.
  - vm_compute. apply list_elem_of_here.
Defined.

(** X12: without persons the assigner returns the empty Assignment
    whatever the items are, and without items it returns the empty
    Assignment whatever the persons are. *)
Theorem assigner_empty_inputs
    (thr : Q) (persons : list Person) (items : list Detection) :
  assign_ppe_to_persons_with thr [] items = Some ∅
  /\ assign_ppe_to_persons_with thr persons [] = Some ∅.
Proof.
  split; [|reflexivity].
  unfold assign_ppe_to_persons_with.
  generalize (sorted_desc ppe_area items). intros l.
  induction l as [|ppe l IH]; [reflexivity|exact IH].
Qed.

(** The first person attaining the greatest IoU is determined by the list,
    whatever the thresholds. *)
Lemma first_best_unique (thr thr' : Q) (persons : list Person)
    (ppe : Detection) (p p' : Person) :
  first_best thr persons ppe p -> first_best thr' persons ppe p' -> p = p'.
Proof.
  intros (l1 & l2 & v & Hsplit & Hv & _ & _ & Hbefore & Hafter)
         (l1' & l2' & v' & Hsplit' & Hv' & _ & _ & Hbefore' & Hafter').
  rewrite Hsplit in Hsplit'.
  apply app_eq_app in Hsplit' as (l & [[-> Hl] | [-> Hl]]).
  - destruct l as [|x l].
    + cbn [app] in Hl. by injection Hl.
    + cbn [app] in Hl. injection Hl as <- ->. exfalso.
      assert (v' < v)%Q as H1.
      { apply (Hbefore p' v'); [|exact Hv'].
        apply elem_of_app. right. apply list_elem_of_here. }
      assert (v <= v')%Q as H2.
      { apply (Hafter' p v); [|exact Hv].
        apply elem_of_app. right. apply list_elem_of_here. }
      lra.
  - destruct l as [|x l].
    + cbn [app] in Hl. by injection Hl.
    + cbn [app] in Hl. injection Hl as <- ->. exfalso.
      assert (v < v')%Q as H1.
      { apply (Hbefore' p v); [|exact Hv].
        apply elem_of_app. right. apply list_elem_of_here. }
      assert (v' <= v)%Q as H2.
      { apply (Hafter p' v'); [|exact Hv'].
        apply elem_of_app. right. apply list_elem_of_here. }
      lra.
Qed.

(** X13: the threshold only gates the assignment, it never changes the
    winner: a person chosen for an item under a threshold is chosen for it
    under every lower threshold. *)
Theorem lower_threshold_keeps_winner
    (thr thr' : Q) (persons : list Person) (ppe : Detection) (p : Person) :
  (thr <= thr')%Q ->
  best_person_for thr' persons ppe = Some (Some p) ->
  best_person_for thr persons ppe = Some (Some p).
Proof.
  intros Hle Hbest.
  assert (forall q, q ∈ persons -> is_Some (iou_with ppe q)) as Hdef.
  { intros q Hq. destruct (iou_with ppe q) eqn:E; [by eexists|].
    unfold best_person_for in Hbest.
    rewrite (best_person_loop_raises thr' ppe persons _ _ q Hq E) in Hbest.
    discriminate. }
  destruct (best_person_for_spec thr' ppe persons Hdef)
    as [[Hnone _] | (p0 & Hp0 & Hfirst')]; [congruence|].
  assert (p0 = p) as -> by congruence.
  destruct (best_person_for_spec thr ppe persons Hdef)
    as [[Hnone Hno] | (p1 & Hp1 & Hfirst)].
  - exfalso.
    destruct Hfirst' as (l1 & l2 & v & -> & Hv & Hpos & Hthr & _).
    apply (Hno p v); [|exact Hv|split; lra].
    apply elem_of_app. right. apply list_elem_of_here.
  - by rewrite (first_best_unique thr' thr persons ppe p p1 Hfirst' Hfirst).
Qed.

Lemma lower_threshold_keeps_winner_witness :
  let persons := [person_at (mkBox 0 0 10 10) 1; person_at (mkBox 4 0 14 10) 2] in
  best_person_for 0 persons (hardhat (mkBox 8 0 12 4))
    = Some (Some (person_at (mkBox 4 0 14 10) 2)).
Proof.
  intros persons.
  apply (lower_threshold_keeps_winner 0 (1 # 10)); [|reflexivity].
  vm_compute. discriminate.
Defined.

(** * Further properties of the scorer *)

Lemma weight_sum_perm (weights : gmap string Z) (l l' : list Detection) :
  Permutation l l' -> weight_sum weights l = weight_sum weights l'.
Proof.
  unfold weight_sum.
  induction 1 as [|x l l' _ IH|x y l|l l' l'' _ IH1 _ IH2]; cbn [foldr].
  - reflexivity.
  - lia.
  - lia.
  - congruence.
Qed.

Lemma weight_sum_app (weights : gmap string Z) (l l' : list Detection) :
  weight_sum weights (l ++ l') = weight_sum weights l + weight_sum weights l'.
Proof.
  unfold weight_sum.
  induction l as [|x l IH]; cbn [app foldr]; lia.
Qed.

(** X15: every entry of the score map is between 0 and 100, whatever the
    weights are, negative ones included. *)
Theorem score_between_0_and_100
    (weights : gmap string Z) (persons : list Person)
    (assigned_ppe : gmap Z (list Detection)) (k s : Z) :
  calculate_ppe_scores_with weights persons assigned_ppe !! k = Some s ->
  0 <= s <= 100.
Proof.
  rewrite calculate_ppe_scores_lookup.
  destruct (decide _); [|discriminate].
  intros [= <-]. apply clamp_score_range.
Qed.

Lemma score_between_0_and_100_witness :
  exists s,
    calculate_ppe_scores_with {["Hardhat" := -50]}
      [person_at (mkBox 0 0 10 10) 1]
      {[1 := [hardhat (mkBox 2 0 6 3)]]} !! 1 = Some s
    /\ 0 <= s <= 100.
Proof.
  eexists. split; [vm_compute; reflexivity|].
  apply (score_between_0_and_100 {["Hardhat" := -50]}
           [person_at (mkBox 0 0 10 10) 1]
           {[1 := [hardhat (mkBox 2 0 6 3)]]} 1).
  vm_compute. reflexivity.
Defined.

(** X16: the score map depends only on the set of person IDs and, for each
    ID, on the items assigned to it up to their order: persons listed in
    another order or more than once, and item lists permuted, give the same
    map. *)
Theorem scores_depend_on_id_set_and_item_multisets
    (weights : gmap string Z) (persons persons' : list Person)
    (A A' : gmap Z (list Detection)) :
  (forall k, k ∈ map p_id persons <-> k ∈ map p_id persons') ->
  (forall k, Permutation (items_of A k) (items_of A' k)) ->
  calculate_ppe_scores_with weights persons A
  = calculate_ppe_scores_with weights persons' A'.
Proof.
  intros Hids Hitems. apply map_eq. intros k.
  rewrite !calculate_ppe_scores_lookup.
  destruct (decide (k ∈ map p_id persons)) as [Hk|Hk];
    destruct (decide (k ∈ map p_id persons')) as [Hk'|Hk'].
  - by rewrite (weight_sum_perm weights _ _ (Hitems k)).
  - exfalso. by apply Hk', Hids.
  - exfalso. by apply Hk, Hids.
  - reflexivity.
Qed.

Lemma scores_depend_on_id_set_and_item_multisets_witness :
  let a := person_at (mkBox 0 0 10 10) 1 in
  let b := person_at (mkBox 20 0 30 10) 2 in
  let h := hardhat (mkBox 2 0 6 3) in
  let v := vest (mkBox 1 3 9 10) in
  calculate_ppe_scores [a; b; a] {[1 := [h; v]]}
  = calculate_ppe_scores [b; a] {[1 := [v; h]]}.
Proof.
  intros a b h v.
  apply scores_depend_on_id_set_and_item_multisets.
  - intros k. cbn [map]. rewrite !elem_of_cons. tauto.
  - intros k. unfold items_of.
    destruct (decide (k = 1)) as [->|Hne].
    + rewrite !lookup_singleton_eq. apply perm_swap.
    + rewrite !lookup_singleton_ne by done. reflexivity.
Defined.

(** X17: filing one more item of non-negative weight under an ID never
    lowers the score of that ID and leaves every other score unchanged. *)
Theorem score_monotone_in_assigned_items
    (weights : gmap string Z) (persons : list Person)
    (A : gmap Z (list Detection)) (pid : Z) (ppe : Detection) (k : Z) :
  0 <= weight_of weights ppe ->
  k ∈ map p_id persons ->
  exists s s',
    calculate_ppe_scores_with weights persons A !! k = Some s
    /\ calculate_ppe_scores_with weights persons (dd_append pid ppe A) !! k
       = Some s'
    /\ s <= s' /\ (k <> pid -> s = s').
Proof.
  intros Hw Hk. rewrite !calculate_ppe_scores_lookup.
  destruct (decide _); [|contradiction].
  eexists _, _. split; [reflexivity|]. split; [reflexivity|].
  unfold items_of at 2 4. rewrite dd_append_lookup.
  destruct (decide (pid = k)) as [->|Hne].
  - cbn [default id]. rewrite weight_sum_app. cbn [weight_sum foldr].
    unfold clamp_score. split; [lia | congruence].
  - fold (items_of A k). split; [lia | done].
Qed.

Lemma score_monotone_in_assigned_items_witness :
  exists s s',
    calculate_ppe_scores [person_at (mkBox 0 0 10 10) 1] ∅ !! 1 = Some s
    /\ calculate_ppe_scores [person_at (mkBox 0 0 10 10) 1]
         (dd_append 1 (hardhat (mkBox 2 0 6 3)) ∅) !! 1 = Some s'
    /\ s <= s' /\ (1 <> 1 -> s = s').
Proof.
  apply (score_monotone_in_assigned_items settings.PPE_WEIGHTS
           [person_at (mkBox 0 0 10 10) 1] ∅ 1 (hardhat (mkBox 2 0 6 3)) 1).
  - vm_compute. discriminate.
  - apply list_elem_of_here.
Defined.

(** X14: with a single person, the person's score is the clamped sum of
    the weights of the input items whose IoU with the person is positive
    and reaches the threshold, and the person's list is those items in
    processing order. *)
Theorem single_person_gets_overlapping_items
    (thr : Q) (weights : gmap string Z) (p : Person)
    (items : list Detection) (A : gmap Z (list Detection)) :
  assign_ppe_to_persons_with thr [p] items = Some A ->
  items_of A (p_id p)
    = filter (fun it => overlaps thr p it = true) (sorted_desc ppe_area items)
  /\ calculate_ppe_scores_with weights [p] A !! p_id p
     = Some (clamp_score
               (weight_sum weights
                  (filter (fun it => overlaps thr p it = true) items))).
Proof.
  intros HA. apply assign_ppe_to_persons_Some in HA as [_ Hitems].
  assert (items_of A (p_id p)
          = filter (fun it => overlaps thr p it = true)
                   (sorted_desc ppe_area items)) as Hmine.
  { rewrite Hitems. apply list_filter_iff. intros it.
    unfold owner_id, best_person_for, overlaps, iou_with.
    cbn [best_person_loop].
    destruct (calculate_iou (p_box p) (d_box it)) as [v|]; [|done].
    destruct (Qltb 0 v && Qle_bool thr v); split; congruence. }
  split; [exact Hmine|].
  rewrite calculate_ppe_scores_lookup.
  destruct (decide _) as [_|Hn];
    [|exfalso; apply Hn; cbn [map]; apply list_elem_of_here].
  rewrite Hmine. do 2 f_equal. apply weight_sum_perm.
  apply filter_Permutation. symmetry. apply sorted_desc_perm.
Qed.

Lemma single_person_gets_overlapping_items_witness :
  let p := person_at (mkBox 0 0 10 10) 7 in
  let items := [hardhat (mkBox 2 0 6 3); vest (mkBox 40 40 50 50);
                vest (mkBox 1 3 9 10)] in
  exists A, assign_ppe_to_persons [p] items = Some A
            /\ calculate_ppe_scores [p] A !! 7 = Some 80.
Proof.
  intros p items. eexists. split; [vm_compute; reflexivity|].
  eapply eq_trans;
    [apply (single_person_gets_overlapping_items settings.IOU_THRESHOLD
              settings.PPE_WEIGHTS p items); vm_compute; reflexivity|].
  vm_compute. reflexivity.
Defined.

Lemma configured_weight_of (it : Detection) :
  weight_of settings.PPE_WEIGHTS it =
    if decide (d_class it = "Hardhat") then 40
    else if decide (d_class it = "Safety Vest") then 40
    else if decide (d_class it = "Mask") then 20 else 0.
Proof.
  unfold weight_of, settings.PPE_WEIGHTS.
  rewrite !lookup_insert, lookup_empty.
  destruct (decide (d_class it = "Hardhat")) as [->|H1]; [reflexivity|].
  destruct (decide ("Hardhat" = d_class it)); [congruence|].
  destruct (decide (d_class it = "Safety Vest")) as [->|H2]; [reflexivity|].
  destruct (decide ("Safety Vest" = d_class it)); [congruence|].
  destruct (decide (d_class it = "Mask")) as [->|H3]; [reflexivity|].
  destruct (decide ("Mask" = d_class it)); [congruence|]. reflexivity.
Qed.

Lemma configured_weight_sum (items : list Detection) :
  weight_sum settings.PPE_WEIGHTS items
  = 40 * count_class "Hardhat" items + 40 * count_class "Safety Vest" items
    + 20 * count_class "Mask" items.
Proof.
  unfold count_class.
  induction items as [|it items IH]; [reflexivity|].
  change (weight_sum settings.PPE_WEIGHTS (it :: items))
    with (weight_of settings.PPE_WEIGHTS it
          + weight_sum settings.PPE_WEIGHTS items).
  rewrite IH, configured_weight_of, !filter_cons.
  repeat case_decide; try congruence; cbn [length]; lia.
Qed.

(** X18: with the configured weights, the score of a person is
    [min(100, 40 * hardhats + 40 * vests + 20 * masks)], the numbers of
    items of each class assigned to the person; items of one class add up,
    so two hardhats alone give 80. *)
Theorem configured_score_counts_items_per_class
    (persons : list Person) (A : gmap Z (list Detection)) (p : Person) :
  p ∈ persons ->
  calculate_ppe_scores persons A !! p_id p
  = Some (Z.min 100
            (40 * count_class "Hardhat" (items_of A (p_id p))
             + 40 * count_class "Safety Vest" (items_of A (p_id p))
             + 20 * count_class "Mask" (items_of A (p_id p)))).
Proof.
  intros Hp. unfold calculate_ppe_scores.
  rewrite calculate_ppe_scores_lookup.
  destruct (decide _) as [_|Hn];
    [|exfalso; apply Hn; apply list_elem_of_fmap; by exists p].
  rewrite configured_weight_sum. unfold clamp_score, count_class. f_equal. lia.
Qed.

Lemma configured_score_counts_items_per_class_witness :
  let p := person_at (mkBox 0 0 10 10) 1 in
  calculate_ppe_scores [p]
    {[1 := [hardhat (mkBox 2 0 6 3); hardhat (mkBox 3 0 7 3)]]} !! 1
  = Some 80.
Proof.
  intros p.
  eapply eq_trans;
    [apply (configured_score_counts_items_per_class [p] _ p);
     apply list_elem_of_here|].
  vm_compute. reflexivity.
Defined.

(** * Properties of the frame pipeline and of the visualisation *)

(** What a frame that does not raise returns. *)
Lemma process_detections_Some (thr : Q) (weights : gmap string Z)
    (now : nat -> Q) (st : Tracker) (detections : list Detection)
    (r : FrameResult) :
  snd (process_detections_with thr weights now st detections) = Some r ->
  let tracked := snd (track_persons now st (List.filter is_person detections)) in
  let ppe_items := List.filter (is_ppe weights) detections in
  exists A,
    assign_ppe_to_persons_with thr tracked ppe_items = Some A
    /\ r = mkResult tracked ppe_items
             (calculate_ppe_scores_with weights tracked A).
Proof.
  unfold process_detections_with.
  destruct (track_persons now st (List.filter is_person detections))
    as [st' tracked]. cbn [snd].
  destruct (assign_ppe_to_persons_with thr tracked _) as [A|]; cbn [snd];
    [|discriminate].
  intros [= <-]. by exists A.
Qed.

Lemma is_ppe_elem (weights : gmap string Z) (detections : list Detection)
    (d : Detection) :
  d ∈ List.filter (is_ppe weights) detections
  <-> d ∈ detections /\ is_Some (weights !! d_class d).
Proof.
  rewrite !list_elem_of_In, filter_In. unfold is_ppe.
  by rewrite bool_decide_eq_true.
Qed.

Lemma is_person_elem (detections : list Detection) (d : Detection) :
  d ∈ List.filter is_person detections
  <-> d ∈ detections /\ d_class d = "Person".
Proof.
  rewrite !list_elem_of_In, filter_In. unfold is_person.
  by rewrite bool_decide_eq_true.
Qed.

(** The frame raises exactly when the assigner meets a person box and an
    item box that touch and both have zero area. *)
Lemma process_detections_None_iff
    (thr : Q) (weights : gmap string Z) (now : nat -> Q) (st : Tracker)
    (detections : list Detection) :
  snd (process_detections_with thr weights now st detections) = None <->
    exists d it,
      d ∈ detections /\ d_class d = "Person"
      /\ it ∈ detections /\ is_Some (weights !! d_class it)
      /\ (Qmax (bx1 (d_box d)) (bx1 (d_box it))
            <= Qmin (bx2 (d_box d)) (bx2 (d_box it)))%Q
      /\ (Qmax (by1 (d_box d)) (by1 (d_box it))
            <= Qmin (by2 (d_box d)) (by2 (d_box it)))%Q
      /\ (box_area (d_box d) == 0)%Q /\ (box_area (d_box it) == 0)%Q.
Proof.
  unfold process_detections_with.
  pose proof (track_persons_dets now st (List.filter is_person detections)) as Hdets.
  destruct (track_persons now st (List.filter is_person detections))
    as [st' tracked]. cbn [fst snd] in *.
  destruct (assign_ppe_to_persons_with thr tracked
              (List.filter (is_ppe weights) detections)) as [A|] eqn:HA;
    cbn [snd].
  - split; [discriminate|].
    intros (d & it & Hd & Hclass & Hit & Hw & Hgeo). exfalso.
    assert (d ∈ map p_det tracked) as Hin
      by (rewrite Hdets; by apply is_person_elem).
    apply list_elem_of_fmap in Hin as (p & -> & Hp).
    rewrite (assign_ppe_to_persons_raises thr tracked _ p it Hp) in HA;
      [discriminate | by apply is_ppe_elem |].
    by apply calculate_iou_None_iff.
  - split; [intros _|done].
    destruct (all_iou_definedb tracked (List.filter (is_ppe weights) detections))
      eqn:E.
    + apply all_iou_definedb_spec in E.
      destruct (assign_ppe_to_persons_returns thr tracked _ E) as (A & HA').
      congruence.
    + apply all_iou_definedb_false in E as (p & it & Hp & Hit & Hraise).
      apply calculate_iou_None_iff in Hraise.
      assert (p_det p ∈ List.filter is_person detections) as Hin
        by (rewrite <- Hdets; apply list_elem_of_fmap; by exists p).
      apply is_person_elem in Hin as [Hin Hclass].
      apply is_ppe_elem in Hit as [Hit Hw].
      exists (p_det p), it. done.
Qed.

(** C9, as amended: per frame the detections are split by class label
    alone.  Whenever the frame returns, the returned persons are the
    detections labelled "Person" in input order, and the returned equipment
    list is the sub-list, in input order and unchanged, of the detections
    whose label is a key of the weight table; a detection whose label is
    neither is in neither list, and when "Person" has no weight, as in the
    configured table, no detection is in both.  The frame returns on every
    input but those where a person box and an equipment box touch and both
    have zero area, so it returns as soon as no person box has zero
    area. *)
Theorem process_detections_splits_by_weighted_label
    (thr : Q) (weights : gmap string Z) (now : nat -> Q) (st : Tracker)
    (detections : list Detection) :
  (forall r,
     snd (process_detections_with thr weights now st detections) = Some r ->
     r_ppe_items r = List.filter (is_ppe weights) detections
     /\ map p_det (r_persons r) = List.filter is_person detections
     /\ (forall d, d ∈ r_ppe_items r <->
           d ∈ detections /\ is_Some (weights !! d_class d))
     /\ (forall d, d ∈ detections -> d_class d <> "Person" ->
           weights !! d_class d = None ->
           (d ∉ r_ppe_items r) /\ (d ∉ map p_det (r_persons r)))
     /\ (weights !! "Person" = None ->
         forall d, d ∈ r_ppe_items r -> d ∉ map p_det (r_persons r)))
  /\ (snd (process_detections_with thr weights now st detections) = None <->
       exists d it,
         d ∈ detections /\ d_class d = "Person"
         /\ it ∈ detections /\ is_Some (weights !! d_class it)
         /\ (Qmax (bx1 (d_box d)) (bx1 (d_box it))
               <= Qmin (bx2 (d_box d)) (bx2 (d_box it)))%Q
         /\ (Qmax (by1 (d_box d)) (by1 (d_box it))
               <= Qmin (by2 (d_box d)) (by2 (d_box it)))%Q
         /\ (box_area (d_box d) == 0)%Q /\ (box_area (d_box it) == 0)%Q)
  /\ ((forall d, d ∈ detections -> d_class d = "Person" ->
         ~ (box_area (d_box d) == 0)%Q) ->
      exists r,
        snd (process_detections_with thr weights now st detections) = Some r).
Proof.
  split; [|split; [apply process_detections_None_iff|]].
  - intros r Hr. apply process_detections_Some in Hr as (A & _ & ->).
    cbn [r_ppe_items r_persons].
    pose proof (track_persons_dets now st (List.filter is_person detections))
      as Hdets.
    split; [reflexivity|]. split; [exact Hdets|].
    split; [apply is_ppe_elem|]. split.
    + intros d Hd Hnp Hnw. split.
      * rewrite is_ppe_elem. intros [_ [w Hw]]. congruence.
      * rewrite Hdets, is_person_elem. intros [_ Hc]. contradiction.
    + intros Hnone d Hd Hp.
      apply is_ppe_elem in Hd as [_ [w Hw]].
      rewrite Hdets in Hp. apply is_person_elem in Hp as [_ Hc].
      rewrite Hc in Hw. congruence.
  - intros Hpos.
    destruct (snd (process_detections_with thr weights now st detections))
      as [r|] eqn:E; [by exists r|].
    apply process_detections_None_iff in E
      as (d & it & Hd & Hclass & _ & _ & _ & _ & Hzero & _).
    by destruct (Hpos d Hd Hclass).
Qed.

Lemma process_detections_splits_by_weighted_label_witness :
  let now := fun _ : nat => 0%Q in
  let person := person_det (mkBox 0 0 10 10) in
  let hat := hardhat (mkBox 2 0 6 3) in
  let truck := mkDet "vehicle" (mkBox 50 50 90 90) 1 in
  exists r,
    snd (process_detections now init_tracker [person; hat; truck]) = Some r
    /\ r_ppe_items r = [hat]
    /\ map p_det (r_persons r) = [person]
    /\ (truck ∉ r_ppe_items r) /\ (truck ∉ map p_det (r_persons r)).
Proof.
  intros now person hat truck.
  destruct (process_detections_splits_by_weighted_label
              settings.IOU_THRESHOLD settings.PPE_WEIGHTS now init_tracker
              [person; hat; truck]) as (Hsplit & _ & Hreturns).
  destruct Hreturns as [r Hr].
  { intros d Hd Hclass.
    repeat (apply elem_of_cons in Hd as [->|Hd]); [..|by apply elem_of_nil in Hd];
      try discriminate Hclass.
    vm_compute. discriminate. }
  destruct (Hsplit r Hr) as (Hppe & Hper & _ & Hdrop & _).
  exists r. split; [exact Hr|]. split; [exact Hppe|]. split; [exact Hper|].
  apply (Hdrop truck).
  - apply list_elem_of_further, list_elem_of_further, list_elem_of_here.
  - discriminate.
  - reflexivity.
Defined.

(** X19: the frame raises exactly when a detection labelled "Person" and a
    detection with a weighted label have touching boxes of zero area; the
    tracker has then already been updated with the persons of the frame. *)
Theorem frame_raises_exactly_on_zero_area_pair
    (thr : Q) (weights : gmap string Z) (now : nat -> Q) (st : Tracker)
    (detections : list Detection) :
  (snd (process_detections_with thr weights now st detections) = None <->
     exists d it,
       d ∈ detections /\ d_class d = "Person"
       /\ it ∈ detections /\ is_Some (weights !! d_class it)
       /\ (Qmax (bx1 (d_box d)) (bx1 (d_box it))
             <= Qmin (bx2 (d_box d)) (bx2 (d_box it)))%Q
       /\ (Qmax (by1 (d_box d)) (by1 (d_box it))
             <= Qmin (by2 (d_box d)) (by2 (d_box it)))%Q
       /\ (box_area (d_box d) == 0)%Q /\ (box_area (d_box it) == 0)%Q)
  /\ fst (process_detections_with thr weights now st detections)
     = fst (track_persons now st (List.filter is_person detections)).
Proof.
  split; [apply process_detections_None_iff|].
  unfold process_detections_with.
  destruct (track_persons now st (List.filter is_person detections))
    as [st' tracked]. cbn [fst].
  by destruct (assign_ppe_to_persons_with thr tracked _).
Qed.

(** X20: in the result of a frame the score map has exactly the IDs of the
    returned persons as keys, every score is between 0 and 100, and the
    returned persons are the detections labelled "Person", in input order,
    each with an ID. *)
Theorem frame_result_is_consistent
    (thr : Q) (weights : gmap string Z) (now : nat -> Q) (st : Tracker)
    (detections : list Detection) (r : FrameResult) :
  snd (process_detections_with thr weights now st detections) = Some r ->
  dom (r_scores r) = list_to_set (map p_id (r_persons r))
  /\ (forall k s, r_scores r !! k = Some s -> 0 <= s <= 100)
  /\ map p_det (r_persons r) = List.filter is_person detections.
Proof.
  intros Hr. apply process_detections_Some in Hr as (A & _ & ->).
  cbn [r_scores r_persons]. split; [|split].
  - apply set_eq. intros k.
    rewrite elem_of_dom, elem_of_list_to_set, calculate_ppe_scores_lookup.
    destruct (decide _) as [H|H]; split; intros H'; done.
  - intros k s. rewrite calculate_ppe_scores_lookup.
    destruct (decide _); [|discriminate].
    intros [= <-]. apply clamp_score_range.
  - apply track_persons_dets.
Qed.

Lemma frame_result_is_consistent_witness :
  let now := fun _ : nat => 0%Q in
  let dets := [person_det (mkBox 0 0 10 10); hardhat (mkBox 2 0 6 3)] in
  exists r, snd (process_detections now init_tracker dets) = Some r
            /\ dom (r_scores r) = list_to_set (map p_id (r_persons r)).
Proof.
  intros now dets. eexists. split; [vm_compute; reflexivity|].
  eapply (frame_result_is_consistent settings.IOU_THRESHOLD
            settings.PPE_WEIGHTS now init_tracker dets).
  vm_compute. reflexivity.
Defined.

Lemma compliance_color_cases (score : Z) :
  compliance_color score =
    if decide (80 <= score) then (0, 200, 0) else (0, 0, 200).
Proof.
  unfold compliance_color, settings.COMPLIANCE_THRESHOLD.
  destruct (Z.leb_spec 80 score); case_decide; try lia; reflexivity.
Qed.

(** X21: on the scores of the configured scorer, the filled info box that
    [visualize_results] draws for a scored person has the compliant colour
    (0, 200, 0) exactly when twice the number of the person's hardhats plus
    twice the number of vests plus the number of masks is at least 4, and
    the non-compliant colour (0, 0, 200) otherwise. *)
Theorem info_box_colour_decided_by_item_counts
    (persons : list Person) (A : gmap Z (list Detection)) (p : Person) :
  p ∈ persons ->
  let scores := calculate_ppe_scores persons A in
  let n := 2 * count_class "Hardhat" (items_of A (p_id p))
           + 2 * count_class "Safety Vest" (items_of A (p_id p))
           + count_class "Mask" (items_of A (p_id p)) in
  let x1 := py_int (bx1 (p_box p)) in
  let iy := info_y (py_int (by1 (p_box p))) (py_int (by2 (p_box p))) in
  Rectangle (x1 - 1, iy - 20) (x1 + 200, iy + 60)
            (if decide (4 <= n) then (0, 200, 0) else (0, 0, 200)) (-1)
    ∈ draw_person scores p.
Proof.
  intros Hp scores n x1 iy.
  assert (compliance_color (shown_score scores (p_id p))
          = if decide (4 <= n) then (0, 200, 0) else (0, 0, 200)) as <-.
  { rewrite compliance_color_cases. unfold shown_score, scores, calculate_ppe_scores.
    rewrite calculate_ppe_scores_lookup.
    destruct (decide (p_id p ∈ map p_id persons)) as [_|Hn];
      [|exfalso; apply Hn; apply list_elem_of_fmap; by exists p].
    cbn [default id]. rewrite configured_weight_sum. unfold clamp_score.
    subst n. repeat case_decide; try reflexivity; exfalso; lia. }
  unfold draw_person. cbv zeta. fold x1 iy.
  apply list_elem_of_further, list_elem_of_here.
Qed.

Lemma info_box_colour_decided_by_item_counts_witness :
  let p := person_at (mkBox 100 100 200 300) 1 in
  let A : gmap Z (list Detection) :=
    {[1 := [hardhat (mkBox 120 100 160 130); hardhat (mkBox 125 100 165 130)]]} in
  Rectangle (99, 70) (300, 150) (0, 200, 0) (-1)
    ∈ draw_person (calculate_ppe_scores [p] A) p.
Proof.
  intros p A.
  apply (info_box_colour_decided_by_item_counts [p] A p).
  apply list_elem_of_here.
Defined.

Lemma py_int_nonneg (x : Q) : (0 <= x)%Q -> 0 <= py_int x.
Proof.
  intros Hx. unfold py_int. apply Z.quot_pos; [|lia].
  unfold Qle in Hx. cbn in Hx. lia.
Qed.

(** X22: for a person whose box has non-negative [y1] and [y2], every
    rectangle [visualize_results] draws for the person starts at a
    non-negative height and every text is placed at height 20 or more: the
    info box never leaves the frame through its top. *)
Theorem person_drawing_stays_below_frame_top
    (scores : gmap Z Z) (p : Person) (cmd : DrawCmd) :
  (0 <= by1 (p_box p))%Q -> (0 <= by2 (p_box p))%Q ->
  cmd ∈ draw_person scores p ->
  match cmd with
  | Rectangle pt1 _ _ _ => 0 <= snd pt1
  | PutText _ org _ _ _ => 20 <= snd org
  end.
Proof.
  intros Hy1 Hy2 Hcmd.
  apply py_int_nonneg in Hy1, Hy2.
  unfold draw_person in Hcmd. cbv zeta in Hcmd.
  assert (20 <= info_y (py_int (by1 (p_box p))) (py_int (by2 (p_box p))))
    as Hiy.
  { unfold info_y. destruct (Z.ltb_spec 30 (py_int (by1 (p_box p)))); lia. }
  repeat (apply elem_of_cons in Hcmd as [->|Hcmd]); cbn [snd]; try lia.
  by apply elem_of_nil in Hcmd.
Qed.

Lemma person_drawing_stays_below_frame_top_witness :
  let p := person_at (mkBox 100 5 200 300) 1 in
  Forall (fun cmd =>
            match cmd with
            | Rectangle pt1 _ _ _ => 0 <= snd pt1
            | PutText _ org _ _ _ => 20 <= snd org
            end) (draw_person ∅ p).
Proof.
  intros p. apply List.Forall_forall. intros cmd Hcmd.
  apply (proj2 (list_elem_of_In _ _)) in Hcmd. revert Hcmd.
  apply (person_drawing_stays_below_frame_top ∅ p cmd);
    vm_compute; discriminate.
Defined.

(** X23: on the result of a frame processed with the configured settings
    neither default of [visualize_results] is used: every returned person
    has a score in the score map, and every returned equipment item has a
    colour in [COLORS]. *)
Theorem visualisation_defaults_unused_on_frame_result
    (now : nat -> Q) (st : Tracker) (detections : list Detection)
    (r : FrameResult) :
  snd (process_detections now st detections) = Some r ->
  (forall p, p ∈ r_persons r -> is_Some (r_scores r !! p_id p))
  /\ (forall it, it ∈ r_ppe_items r -> is_Some (COLORS !! d_class it)).
Proof.
  intros Hr. apply process_detections_Some in Hr as (A & _ & ->).
  cbn [r_scores r_persons r_ppe_items]. split.
  - intros p Hp. rewrite calculate_ppe_scores_lookup.
    destruct (decide _) as [_|Hn]; [by eexists|].
    exfalso. apply Hn. apply list_elem_of_fmap. by exists p.
  - intros it Hit. apply is_ppe_elem in Hit as [_ [w Hw]].
    unfold settings.PPE_WEIGHTS in Hw. unfold COLORS.
    rewrite !lookup_insert in Hw. rewrite !lookup_insert.
    repeat case_decide; try done; rewrite lookup_empty in Hw; discriminate.
Qed.

Lemma visualisation_defaults_unused_on_frame_result_witness :
  let now := fun _ : nat => 0%Q in
  let dets := [person_det (mkBox 0 0 10 10); hardhat (mkBox 2 0 6 3)] in
  exists r, snd (process_detections now init_tracker dets) = Some r
            /\ forall p, p ∈ r_persons r -> is_Some (r_scores r !! p_id p).
Proof.
  intros now dets. eexists. split; [vm_compute; reflexivity|].
  eapply (visualisation_defaults_unused_on_frame_result now init_tracker dets).
  vm_compute. reflexivity.
Defined.

(** * Further properties of the tracker *)

(** X24: [track_persons] returns one person per input detection, in input
    order, each carrying its detection unchanged. *)
Theorem tracker_returns_every_detection_in_order
    (now : nat -> Q) (st : Tracker) (dets : list Detection) :
  map p_det (snd (track_persons now st dets)) = dets.
Proof. apply track_persons_dets. Qed.

Lemma nearest_loop_positions (c : Q * Q) (d : list (Z * TrackData)) :
  forall (d' : list (Z * TrackData)) (m : option Z) (md : option Q),
  positions d = positions d' ->
  nearest_loop c d m md = nearest_loop c d' m md.
Proof.
  induction d as [|[k data] d IH]; intros [|[k' data'] d'] m md Hpos;
    try discriminate; [reflexivity|].
  cbn [positions map fst snd] in Hpos. injection Hpos as -> Hc Hpos.
  cbn [nearest_loop]. cbv zeta. rewrite Hc.
  destruct (_ && _); by apply IH.
Qed.

(** X25: matching never looks at the age of a track: two trackers with the
    same counter and the same live IDs and centroids, whatever their
    timestamps, give a detection the same ID. *)
Theorem matching_ignores_timestamps
    (st st' : Tracker) (person : Detection) (t t' : Q) :
  id_counter st = id_counter st' ->
  positions (tracked_persons st) = positions (tracked_persons st') ->
  p_id (snd (track_one st person t)) = p_id (snd (track_one st' person t')).
Proof.
  intros Hc Hpos. unfold track_one, nearest_track.
  rewrite (nearest_loop_positions _ _ _ None None Hpos), Hc.
  by destruct (nearest_loop _ _ _ _).
Qed.

Lemma matching_ignores_timestamps_witness :
  let d := person_det (mkBox 90 90 110 110) in
  p_id (snd (track_one (mkTracker 5 [(3, mkTrack (100, 100)%Q 0)]) d 1))
  = p_id (snd (track_one (mkTracker 5 [(3, mkTrack (100, 100)%Q 1000)]) d 2000)).
Proof.
  intros d. apply matching_ignores_timestamps; reflexivity.
Defined.

Lemma dict_set_elem (k : Z) (v : TrackData) (d : list (Z * TrackData))
    (e : Z * TrackData) :
  e ∈ dict_set k v d -> e = (k, v) \/ e ∈ d.
Proof.
  induction d as [|[k0 v0] d IH]; cbn [dict_set].
  - intros He. apply list_elem_of_singleton in He. by left.
  - destruct (Z.eqb k0 k).
    + intros He. apply elem_of_cons in He as [->|He]; [by left|].
      right. by apply list_elem_of_further.
    + intros He. apply elem_of_cons in He as [->|He].
      * right. apply list_elem_of_here.
      * destruct (IH He) as [->|Hin]; [by left|].
        right. by apply list_elem_of_further.
Qed.

Lemma seq_shift_map (c : Z) (a n : nat) :
  map (fun i => c + 1 + Z.of_nat i) (seq a n)
  = map (fun i => c + Z.of_nat i) (seq (S a) n).
Proof.
  rewrite <- seq_shift, map_map. apply map_ext. intros i. lia.
Qed.

Lemma track_loop_apart (now : nat -> Q) (dets : list Detection) :
  forall (tick : nat) (st : Tracker),
  (forall d e, d ∈ dets -> e ∈ tracked_persons st ->
     (50 * 50 <= distance_sq (centroid (d_box d)) (center (snd e)))%Q) ->
  pairwise_apart dets ->
  map p_id (snd (track_loop now tick st dets))
  = map (fun i => id_counter st + Z.of_nat i) (seq 1 (length dets)).
Proof.
  induction dets as [|d rest IH]; intros tick st Hfar Hpair; [reflexivity|].
  destruct Hpair as [Hd Hpair].
  rewrite track_loop_cons. cbn [snd map length seq].
  assert (nearest_track (centroid (d_box d)) (tracked_persons st) = None)
    as Hnone.
  { unfold nearest_track. apply nearest_loop_none.
    intros e He. apply Hfar; [apply list_elem_of_here | exact He]. }
  rewrite (track_one_minted st d (now tick) Hnone).
  cbn [fst snd p_id]. apply (f_equal2 cons); [cbn; lia|].
  rewrite IH; [|  | exact Hpair].
  - cbn [id_counter]. apply seq_shift_map.
  - intros d' e Hd' He. cbn [tracked_persons] in He.
    apply dict_set_elem in He as [->|He].
    + cbn [snd center]. by apply Hd.
    + apply Hfar; [by apply list_elem_of_further | exact He].
Qed.

(** X26: when the detections of a frame are at least 50 pixels from every
    live track and from each other, they receive the next counter values
    in input order: counter + 1, counter + 2, and so on. *)
Theorem separated_detections_get_consecutive_new_ids
    (now : nat -> Q) (st : Tracker) (dets : list Detection) :
  (forall d e, d ∈ dets -> e ∈ tracked_persons st ->
     (50 * 50 <= distance_sq (centroid (d_box d)) (center (snd e)))%Q) ->
  pairwise_apart dets ->
  map p_id (snd (track_persons now st dets))
    = map (fun i => id_counter st + Z.of_nat i) (seq 1 (length dets))
  /\ id_counter (fst (track_persons now st dets))
     = id_counter st + Z.of_nat (length dets).
Proof.
  intros Hfar Hpair. rewrite track_persons_eq. cbn [fst snd id_counter].
  split; [by apply track_loop_apart|].
  revert st Hfar Hpair. generalize 0%nat as tick.
  induction dets as [|d rest IH]; intros tick st Hfar Hpair;
    [cbn; lia|].
  destruct Hpair as [Hd Hpair].
  rewrite track_loop_cons. cbn [fst length].
  assert (nearest_track (centroid (d_box d)) (tracked_persons st) = None)
    as Hnone.
  { unfold nearest_track. apply nearest_loop_none.
    intros e He. apply Hfar; [apply list_elem_of_here | exact He]. }
  rewrite (track_one_minted st d (now tick) Hnone). cbn [fst].
  rewrite IH; [cbn [id_counter]; lia| |exact Hpair].
  intros d' e Hd' He. cbn [tracked_persons] in He.
  apply dict_set_elem in He as [->|He].
  - cbn [snd center]. by apply Hd.
  - apply Hfar; [by apply list_elem_of_further | exact He].
Qed.

Lemma separated_detections_get_consecutive_new_ids_witness :
  let now := fun _ : nat => 0%Q in
  let st := mkTracker 4 [(2, mkTrack (500, 500)%Q 0)] in
  let dets := [person_det (mkBox 0 0 20 20); person_det (mkBox 100 0 120 20);
               person_det (mkBox 200 0 220 20)] in
  map p_id (snd (track_persons now st dets)) = [5; 6; 7]
  /\ id_counter (fst (track_persons now st dets)) = 7.
Proof.
  intros now st dets.
  apply (separated_detections_get_consecutive_new_ids now st dets).
  - intros d e Hd He. apply list_elem_of_singleton in He as ->.
    repeat (apply elem_of_cons in Hd as [->|Hd]);
      [..|by apply elem_of_nil in Hd]; vm_compute; discriminate.
  - cbn [pairwise_apart]. repeat split;
      intros d' Hd';
      repeat (apply elem_of_cons in Hd' as [->|Hd']);
      try (by apply elem_of_nil in Hd'); vm_compute; discriminate.
Defined.

Lemma nearest_loop_stays_matched (c : Q * Q) (items : list (Z * TrackData)) :
  forall (k : Z) (md : option Q),
  is_Some (nearest_loop c items (Some k) md).
Proof.
  induction items as [|[pid data] rest IH]; intros k md; [by eexists|].
  cbn [nearest_loop]. cbv zeta. destruct (_ && _); apply IH.
Qed.

(** A live track nearer than 50 pixels is enough for a match. *)
Lemma nearest_track_Some (c : Q * Q) (items : list (Z * TrackData))
    (e : Z * TrackData) :
  e ∈ items -> (distance_sq c (center (snd e)) < 50 * 50)%Q ->
  is_Some (nearest_track c items).
Proof.
  unfold nearest_track.
  induction items as [|[pid data] rest IH]; intros He Hnear.
  - by apply elem_of_nil in He.
  - cbn [nearest_loop]. cbv zeta.
    destruct (Qltb (distance_sq c (center data)) (50 * 50)) eqn:E; cbn [andb].
    + apply nearest_loop_stays_matched.
    + apply elem_of_cons in He as [->|He]; [|by apply IH].
      cbn [snd] in Hnear. apply Qltb_lt in Hnear. congruence.
Qed.

(** X27: when a detection follows, in the same frame, a detection whose
    centroid is less than 50 pixels from its own, it never receives a new
    ID: it is matched to a track that is live at that moment, and the
    counter does not move. *)
Theorem close_follower_never_gets_new_id
    (st : Tracker) (d1 d2 : Detection) (t1 t2 : Q) :
  (distance_sq (centroid (d_box d2)) (centroid (d_box d1)) < 50 * 50)%Q ->
  let st1 := fst (track_one st d1 t1) in
  id_counter (fst (track_one st1 d2 t2)) = id_counter st1
  /\ p_id (snd (track_one st1 d2 t2)) ∈ keys (tracked_persons st1).
Proof.
  intros Hclose st1.
  assert ((p_id (snd (track_one st d1 t1)), mkTrack (centroid (d_box d1)) t1)
          ∈ tracked_persons st1) as Hentry.
  { unfold st1, track_one.
    destruct (nearest_track _ _); cbn [fst snd p_id tracked_persons];
      apply dict_set_entry. }
  destruct (nearest_track_Some (centroid (d_box d2)) (tracked_persons st1) _
              Hentry Hclose) as [k Hk].
  rewrite (track_one_matched st1 d2 t2 k Hk). cbn [fst snd id_counter p_id].
  split; [reflexivity|].
  apply nearest_track_live in Hk as (data & Hin & _).
  unfold keys. apply list_elem_of_fmap. by exists (k, data).
Qed.

Lemma close_follower_never_gets_new_id_witness :
  let d1 := person_det (mkBox 0 0 20 20) in
  let d2 := person_det (mkBox 30 0 50 20) in
  let st1 := fst (track_one init_tracker d1 0) in
  id_counter (fst (track_one st1 d2 0)) = id_counter st1
  /\ p_id (snd (track_one st1 d2 0)) ∈ keys (tracked_persons st1).
Proof.
  intros d1 d2.
  apply (close_follower_never_gets_new_id init_tracker d1 d2 0 0).
  reflexivity.
Defined.

(** X28: a single tracked person who moves less than 50 pixels from one
    frame to the next keeps the same ID in every frame, however long the
    time between two frames is: the age of a track is only looked at in the
    clean-up that ends a frame, after the track has been refreshed. *)
Theorem steady_person_keeps_id_across_any_gap
    (frames : list ((nat -> Q) * Detection)) :
  forall (counter k : Z) (data : TrackData),
  steady_walk (center data) frames ->
  forall out,
    out ∈ snd (track_frames (mkTracker counter [(k, data)])
                            (one_person_frames frames)) ->
    map p_id out = [k].
Proof.
  induction frames as [|[now d] rest IH]; intros counter k data Hwalk out Hout.
  - by apply elem_of_nil in Hout.
  - destruct Hwalk as (Hnear & Hfresh & Hwalk).
    cbn [one_person_frames map fst snd] in Hout.
    rewrite track_frames_cons in Hout. cbn [snd] in Hout.
    assert (nearest_track (centroid (d_box d)) [(k, data)] = Some k) as Hk.
    { unfold nearest_track.
      apply (nearest_loop_first_min _ [] [] k data None None); try done;
        intros e He; by apply elem_of_nil in He. }
    assert (track_persons now (mkTracker counter [(k, data)]) [d]
            = (mkTracker counter [(k, mkTrack (centroid (d_box d)) (now 0%nat))],
               [mkPerson d k])) as Hframe.
    { rewrite track_persons_eq, track_loop_cons.
      rewrite (track_one_matched (mkTracker counter [(k, data)]) d
                 (now 0%nat) k Hk).
      cbn [track_loop fst snd id_counter tracked_persons dict_set length].
      rewrite Z.eqb_refl. cbn [purge List.filter].
      assert (is_live (now 1%nat) (k, mkTrack (centroid (d_box d)) (now 0%nat))
              = true) as -> by (unfold is_live; by apply Qltb_lt).
      reflexivity. }
    rewrite Hframe in Hout. cbn [fst snd] in Hout.
    apply elem_of_cons in Hout as [->|Hout]; [reflexivity|].
    by apply (IH counter k (mkTrack (centroid (d_box d)) (now 0%nat))).
Qed.

Lemma steady_person_keeps_id_across_any_gap_witness :
  let frames :=
    [(fun i : nat => (1000 + inject_Z (Z.of_nat i))%Q,
      person_det (mkBox 95 90 115 110));
     (fun i : nat => (90000 + inject_Z (Z.of_nat i))%Q,
      person_det (mkBox 100 95 120 115))] in
  Forall (fun out => map p_id out = [3])
    (snd (track_frames (mkTracker 3 [(3, mkTrack (100, 100)%Q 0)])
                       (one_person_frames frames))).
Proof.
  intros frames. apply List.Forall_forall. intros out Hout.
  apply (proj2 (list_elem_of_In _ _)) in Hout. revert Hout.
  apply (steady_person_keeps_id_across_any_gap frames 3 3
           (mkTrack (100, 100)%Q 0)).
  cbn [steady_walk frames]. repeat split; vm_compute; reflexivity.
Defined.
